(** * directus-extension-models: the type-declaration generator of src/index.ts

    A shallow embedding of the schema-to-type resolution and emission
    functions ([upperCamelCase], [className], [fieldToRelationType],
    [aliasToType], [fieldTypeToJsType], [generateModel], [generateIndex] and
    the [snapshot] command action), followed by the properties of the
    specification that are stated about them.

    Conventions of the embedding.
    - JavaScript strings are [string]s of ASCII characters: [toUpperCase]
      and [toLowerCase] are modelled on these, where they convert the
      letters one for one and leave every other character as it is. What
      the runtime does with the letters outside ASCII, some of which change
      the length of the string, is not modelled, and the statements that
      depend on it carry the hypothesis [asciiOnly].
    - A JavaScript exception is a value of [exn]; a computation that may
      throw returns a [result].
    - [undefined]/[null] properties are [option]s.
    - An object used as an ordered dictionary ([schema.collections],
      [collection.fields]) is the list that [Object.values] enumerates,
      with its keys when the code looks a key up. *)

From Stdlib Require Import String Ascii List Bool Arith Lia.
Import ListNotations.
Local Open Scope list_scope.
Local Open Scope string_scope.

(** ** Exceptions and the error monad *)

Inductive exn : Type :=
| Error (message : string)        (* [throw new Error(message)] *)
| TypeError (message : string)    (* raised by the runtime *)
| Rejection (reason : string).    (* a rejected promise of a host service *)

Inductive result (A : Type) : Type :=
| Ok (a : A)
| Throw (e : exn).
Arguments Ok {A} a.
Arguments Throw {A} e.

Definition bind {A B : Type} (m : result A) (k : A -> result B) : result B :=
  match m with
  | Ok a => k a
  | Throw e => Throw e
  end.

Notation "x <- m ;; k" := (bind m (fun x => k))
  (at level 61, m at next level, right associativity).

(** [Array.prototype.map] with a callback that may throw: the first
    exception ends the traversal. *)
Fixpoint mapM {A B : Type} (f : A -> result B) (l : list A) : result (list B) :=
  match l with
  | [] => Ok []
  | a :: l' => b <- f a ;; bs <- mapM f l' ;; Ok (b :: bs)
  end.

(** ** String primitives of the runtime *)

Definition nl : string := String (ascii_of_nat 10) EmptyString.
Definition quote : ascii := ascii_of_nat 39.
Definition backslash : ascii := ascii_of_nat 92.
Definition dquote : string := String (ascii_of_nat 34) EmptyString.
Definition underscore : ascii := "_"%char.

Definition upperChar (c : ascii) : ascii :=
  let n := nat_of_ascii c in
  if ((97 <=? n)%nat && (n <=? 122)%nat)%bool then ascii_of_nat (n - 32) else c.

Definition lowerChar (c : ascii) : ascii :=
  let n := nat_of_ascii c in
  if ((65 <=? n)%nat && (n <=? 90)%nat)%bool then ascii_of_nat (n + 32) else c.

Fixpoint mapChars (f : ascii -> ascii) (s : string) : string :=
  match s with
  | EmptyString => EmptyString
  | String c r => String (f c) (mapChars f r)
  end.

Definition toUpperCase : string -> string := mapChars upperChar.
Definition toLowerCase : string -> string := mapChars lowerChar.

(** [s.split(sep)] for a one-character separator: never empty, and the
    empty string splits into one empty part. *)
Fixpoint split (sep : ascii) (s : string) : list string :=
  match s with
  | EmptyString => [EmptyString]
  | String c r =>
      if Ascii.eqb c sep then EmptyString :: split sep r
      else match split sep r with
           | part :: parts => String c part :: parts
           | [] => [String c EmptyString]
           end
  end.

(** [parts.join(sep)]. *)
Definition join (sep : string) (parts : list string) : string :=
  String.concat sep parts.

(** [s.replaceAll('\'', '\\\'')]: a backslash is put before every single
    quote. *)
Fixpoint escapeQuotes (s : string) : string :=
  match s with
  | EmptyString => EmptyString
  | String c r =>
      if Ascii.eqb c quote then String backslash (String quote (escapeQuotes r))
      else String c (escapeQuotes r)
  end.

(** [arr.includes(x)] on an array of strings. *)
Definition includes (arr : list string) (x : string) : bool :=
  existsb (String.eqb x) arr.

(** Truthiness of a possibly missing string: [null], [undefined] and the
    empty string are falsy. *)
Definition truthy (o : option string) : bool :=
  match o with
  | Some s => negb (String.eqb s EmptyString)
  | None => false
  end.

(** [o || dflt] on a possibly missing string. *)
Definition orElse (o : option string) (dflt : string) : string :=
  match o with
  | Some s => if String.eqb s EmptyString then dflt else s
  | None => dflt
  end.

(** ** The schema catalog (types of @directus/shared, as the code reads them) *)

Record FieldOverview : Type := {
  field : string;
  type : string;
  nullable : bool;
  note : option string;
  dbType : option string;
  alias : bool
}.

Record Collection : Type := {
  collection : string;
  fields : list FieldOverview       (* [Object.values(collection.fields)] *)
}.

Record ForeignKey : Type := {
  foreign_key_column : option string
}.

Record RelationMeta : Type := {
  one_collection : option string;
  one_field : option string;
  many_collection : string
}.

Record Relation : Type := {
  rel_collection : string;
  rel_field : string;
  related_collection : option string;
  rel_schema : option ForeignKey;
  rel_meta : option RelationMeta
}.

Record SchemaOverview : Type := {
  collections : list (string * Collection);
  relations : list Relation
}.

(** [Object.values(collections)]. *)
Definition values (cs : list (string * Collection)) : list Collection :=
  map snd cs.

(** The own property [key] of the object [collections], if it has one. *)
Fixpoint ownProperty (cs : list (string * Collection)) (key : string) : option Collection :=
  match cs with
  | [] => None
  | (k, c) :: cs' => if String.eqb k key then Some c else ownProperty cs' key
  end.

(** The names of the properties that a plain object inherits from
    [Object.prototype]. *)
Definition prototypeKeys : list string :=
  ["constructor"; "__proto__"; "hasOwnProperty"; "isPrototypeOf"; "propertyIsEnumerable";
   "toLocaleString"; "toString"; "valueOf"; "__defineGetter__"; "__defineSetter__";
   "__lookupGetter__"; "__lookupSetter__"].

(** What [collections[key]] evaluates to: an entity of the catalog, a
    function or object inherited from [Object.prototype], which has no
    [collection], or [undefined]. *)
Inductive property : Type :=
| Own (c : Collection)
| Inherited
| Missing.

(** [collections[key]]. *)
Definition lookup (cs : list (string * Collection)) (key : string) : property :=
  match ownProperty cs key with
  | Some c => Own c
  | None => if includes prototypeKeys key then Inherited else Missing
  end.

(** A property key built from a value that may be [null]: the key is then
    the string ["null"]. *)
Definition propertyKey (o : option string) : string :=
  match o with
  | Some s => s
  | None => "null"
  end.

(** A row of [directus_fields], as far as [generateModel] reads it. *)
(** The [value] of a choice is whatever the row holds: a string, or a value
    on which [replaceAll] cannot be called ([null], [undefined], or a
    number, a boolean or an object, which have no such method). *)
Inductive ChoiceValue : Type :=
| Text (s : string)
| Null
| Undefined
| NoMethod.

Record Choice : Type := { value : ChoiceValue }.
Record FieldOptions : Type := { choices : option (list Choice) }.
Record FieldItem : Type := { options : option FieldOptions }.

(** What the console received: the three arguments of one [console.error]. *)
Record Diagnostic : Type := {
  diag_message : string;
  diag_error : exn;
  diag_trailer : string
}.

(** ** A sample catalog

    A small blog: articles written by users, users managed by users, and a
    tree of folders. It is the input of the examples below. *)

Module Sample.

(** [className] calls [pluralize.singular], a function of the npm package
    pluralize that is no part of src/: the generator takes it as a parameter,
    and the examples need its values on the names they use. These are the
    singular forms that the library gives for these names: it returns the
    word "news" as it is (the word is in its list of uncountable words) and
    drops the final [s] of the others. *)
Definition singulars : list (string * string) :=
  [("articles", "article"); ("users", "user"); ("folders", "folder");
   ("_drafts", "_draft"); ("blocks", "block"); ("members", "member");
   ("Members", "Member"); ("user_accounts", "user_account"); ("news", "news");
   ("tickets", "ticket")].

(** The singularizer of the examples; a word outside the table, which no
    example meets, is left as it is. *)
Definition singularOf (word : string) : string :=
  match find (fun entry => String.eqb (fst entry) word) singulars with
  | Some entry => snd entry
  | None => word
  end.

Definition column (name type_ : string) (nullable_ : bool) : FieldOverview :=
  {| field := name; type := type_; nullable := nullable_;
     note := None; dbType := Some type_; alias := false |}.

Definition virtual (name : string) : FieldOverview :=
  {| field := name; type := "alias"; nullable := false;
     note := None; dbType := None; alias := true |}.

Definition author : FieldOverview := column "author" "uuid" false.
Definition editor : FieldOverview := column "editor" "uuid" true.
Definition shape : FieldOverview := column "shape" "geometry" true.
Definition status : FieldOverview := column "status" "string" false.
Definition rating : FieldOverview := column "rating" "string" false.
Definition reviews : FieldOverview := virtual "reviews".
Definition children : FieldOverview := virtual "children".

Definition articles : Collection :=
  {| collection := "articles";
     fields := [column "id" "integer" false; column "title" "string" true;
                author; editor; shape; status; rating] |}.

Definition users : Collection :=
  {| collection := "users";
     fields := [column "id" "uuid" false; virtual "articles"; reviews] |}.

Definition folders : Collection :=
  {| collection := "folders";
     fields := [column "id" "integer" false; column "parent" "integer" true; children] |}.

Definition drafts : Collection :=
  {| collection := "_drafts"; fields := [column "id" "integer" false] |}.

Definition articles_author : Relation :=
  {| rel_collection := "articles"; rel_field := "author";
     related_collection := Some "users";
     rel_schema := Some {| foreign_key_column := Some "id" |};
     rel_meta := Some {| one_collection := Some "users"; one_field := Some "articles";
                         many_collection := "articles" |} |}.

Definition articles_editor : Relation :=
  {| rel_collection := "articles"; rel_field := "editor";
     related_collection := Some "users";
     rel_schema := None;
     rel_meta := Some {| one_collection := None; one_field := None;
                         many_collection := "articles" |} |}.

Definition folders_parent : Relation :=
  {| rel_collection := "folders"; rel_field := "parent";
     related_collection := Some "folders";
     rel_schema := Some {| foreign_key_column := Some "id" |};
     rel_meta := Some {| one_collection := Some "folders"; one_field := Some "children";
                         many_collection := "folders" |} |}.

Definition blog : SchemaOverview :=
  {| collections := [("articles", articles); ("users", users); ("folders", folders)];
     relations := [articles_author; articles_editor; folders_parent] |}.

(** The same catalog with an entity whose name starts with an underscore. *)
Definition blogWithDrafts : SchemaOverview :=
  {| collections := [("articles", articles); ("_drafts", drafts); ("users", users)];
     relations := [articles_author; articles_editor] |}.

Definition choice (v : string) : Choice := {| value := Text v |}.

(** The rows of [directus_fields]: [status] has the choices of the
    specification's example, [rating] has the same value twice. *)
Definition fieldRows (collection_ field_ : string) : result (list FieldItem) :=
  if String.eqb field_ "status"
  then Ok [{| options := Some {| choices := Some [choice "a"; choice "b'c"] |} |}]
  else if String.eqb field_ "rating"
  then Ok [{| options := Some {| choices := Some [choice "a"; choice "a"] |} |}]
  else Ok [].

End Sample.

(** ** Further sample catalogs *)

Module Cases.

(** A block whose [item] belongs to a relation without related collection
    (a relation to any collection). *)
Definition item : FieldOverview := Sample.column "item" "string" false.

Definition blocks : Collection :=
  {| collection := "blocks"; fields := [Sample.column "id" "integer" false; item] |}.

Definition blocks_item : Relation :=
  {| rel_collection := "blocks"; rel_field := "item";
     related_collection := None;
     rel_schema := None;
     rel_meta := Some {| one_collection := None; one_field := None;
                         many_collection := "blocks" |} |}.

(** Two entities whose names differ by the case of one letter. *)
Definition members : Collection :=
  {| collection := "members"; fields := [Sample.column "id" "uuid" false] |}.

Definition Members : Collection :=
  {| collection := "Members"; fields := [Sample.column "name" "string" true] |}.

Definition site : SchemaOverview :=
  {| collections := [("blocks", blocks); ("members", members); ("Members", Members)];
     relations := [blocks_item] |}.

(** Tickets whose [priority] is a dropdown on an integer field: the values
    of its choices are numbers. *)
Definition priority : FieldOverview := Sample.column "priority" "integer" false.

Definition tickets : Collection :=
  {| collection := "tickets"; fields := [Sample.column "id" "integer" false; priority] |}.

Definition desk : SchemaOverview :=
  {| collections := [("tickets", tickets)]; relations := [] |}.

Definition ticketRows (collection_ field_ : string) : result (list FieldItem) :=
  if String.eqb field_ "priority"
  then Ok [{| options := Some {| choices := Some [{| value := NoMethod |};
                                                  {| value := NoMethod |}] |} |}]
  else Ok [].

End Cases.

(** ** The generator *)

Section Generator.

(** [pluralize.singular]. *)
Variable singular : string -> string.

(** [fieldsService.readByQuery] with the filter on a collection and a field
    and [limit: 1]: the rows found, or the rejection of the promise. *)
Variable readByQuery : string -> string -> result (list FieldItem).

(** The exception of [undefined.toUpperCase()]. *)
Definition noFirstCharacter : exn :=
  TypeError "Cannot read properties of undefined (reading 'toUpperCase')".

(** The callback of [map] in [upperCamelCase]: [part[0]] is [undefined] for
    an empty part, and calling [toUpperCase] on it throws. *)
Definition capitalize (part : string) : result string :=
  match part with
  | EmptyString => Throw noFirstCharacter
  | String c r => Ok (toUpperCase (String c EmptyString) ++ toLowerCase r)
  end.

Definition upperCamelCase (value : string) : result string :=
  parts <- mapM capitalize (split underscore value) ;;
  Ok (join EmptyString parts).

Definition className (c : Collection) : result string :=
  let plural := collection c in
  let singular_ := singular plural in
  upperCamelCase singular_.

(** The exception of [pluralize.singular(undefined)], which calls
    [toLowerCase] on its argument. *)
Definition singularOfUndefined : exn :=
  TypeError "Cannot read properties of undefined (reading 'toLowerCase')".

(** [className(collections[key])]: reading [.collection] of [undefined]
    throws; an inherited property has no [collection], and its [undefined]
    goes to the singularizer. *)
Definition classNameAt (cs : list (string * Collection)) (key : string) : result string :=
  match lookup cs key with
  | Own c => className c
  | Inherited => Throw singularOfUndefined
  | Missing => Throw (TypeError "Cannot read properties of undefined (reading 'collection')")
  end.

Definition oneOf (t : string) (cases : list string) : bool :=
  existsb (String.eqb t) cases.

Definition fieldTypeToJsType (f : FieldOverview) (c : Collection) : result string :=
  let t := type f in
  if oneOf t ["boolean"] then Ok "boolean"
  else if oneOf t ["integer"; "float"; "decimal"; "bigInteger"] then Ok "number"
  else if oneOf t ["dateTime"; "date"; "time"; "timestamp"] then Ok "string"
  else if oneOf t ["text"; "string"; "uuid"; "hash"] then Ok "string"
  else if oneOf t ["json"] then Ok "any"
  else if oneOf t ["csv"] then Ok "string[]"
  else Throw (Error "Unknown type").

Definition importLine (targetClassName : string) : string :=
  "import { " ++ targetClassName ++ " } from " ++ dquote ++ "./" ++ targetClassName
    ++ dquote ++ ";".

(** [relation?.schema?.foreign_key_column]. *)
Definition fkColumn (relation : Relation) : option string :=
  match rel_schema relation with
  | Some fk => foreign_key_column fk
  | None => None
  end.

(** The predicate of [find] in [fieldToRelationType]. *)
Definition isForwardOf (f : FieldOverview) (c : Collection) (r : Relation) : bool :=
  String.eqb (rel_collection r) (collection c) && String.eqb (rel_field r) (field f).

Definition fieldToRelationType (f : FieldOverview) (c : Collection) (schema : SchemaOverview)
  : result (option (list string)) :=
  match find (isForwardOf f c) (relations schema) with
  | None => Ok None
  | Some relation =>
      targetClassName <-
        classNameAt (collections schema) (propertyKey (related_collection relation)) ;;
      keyType <-
        (if truthy (fkColumn relation)
         then Ok (targetClassName ++ "[" ++ dquote
                    ++ propertyKey (fkColumn relation) ++ dquote ++ "]")
         else fieldTypeToJsType f c) ;;
      own <- className c ;;
      if String.eqb targetClassName own
      then Ok (Some [targetClassName ++ " | " ++ keyType])
      else Ok (Some [targetClassName ++ " | " ++ keyType; importLine targetClassName])
  end.

(** The predicate of [find] in [aliasToType]:
    [r?.meta?.one_collection === collection.collection && r?.meta?.one_field]. *)
Definition isAliasOf (f : FieldOverview) (c : Collection) (r : Relation) : bool :=
  match rel_meta r with
  | Some m =>
      match one_collection m with
      | Some oc => String.eqb oc (collection c)
      | None => false
      end && truthy (one_field m)
  | None => false
  end.

Definition aliasToType (f : FieldOverview) (c : Collection) (schema : SchemaOverview)
  : result (option (list string)) :=
  match find (isAliasOf f c) (relations schema) with
  | None => Ok None
  | Some relation =>
      match rel_meta relation with
      | None => Throw (TypeError "Cannot read properties of undefined (reading 'many_collection')")
      | Some m =>
          targetClassName <- classNameAt (collections schema) (many_collection m) ;;
          own <- className c ;;
          if String.eqb targetClassName own
          then Ok (Some [targetClassName])
          else Ok (Some [targetClassName ++ "[]"; importLine targetClassName])
      end
  end.

(** [if (!imports.includes(importLine)) imports.push(importLine)]. *)
Definition pushImport (imports : list string) (line : string) : list string :=
  if includes imports line then imports else (imports ++ [line])%list.

(** [fieldItem?.options?.choices], with [fieldItem] the first row found. *)
Definition choicesOf (rows : list FieldItem) : option (list Choice) :=
  match rows with
  | [] => None
  | fieldItem :: _ =>
      match options fieldItem with
      | Some o => choices o
      | None => None
      end
  end.

(** The template of a literal on a string: the string between single
    quotes, its own single quotes escaped. *)
Definition quoted (s : string) : string :=
  String quote (escapeQuotes s) ++ String quote EmptyString.

(** The callback of [map] on the choices: [choice.value.replaceAll] throws
    when the value is no string. *)
Definition literal (choice : Choice) : result string :=
  match value choice with
  | Text s => Ok (quoted s)
  | Null => Throw (TypeError "Cannot read properties of null (reading 'replaceAll')")
  | Undefined =>
      Throw (TypeError "Cannot read properties of undefined (reading 'replaceAll')")
  | NoMethod => Throw (TypeError "choice.value.replaceAll is not a function")
  end.

(** [if (field.nullable) type = `${type} | null`]. *)
Definition widen (f : FieldOverview) (type_ : string) : string :=
  if nullable f then type_ ++ " | null" else type_.

(** [field.alias ? aliasToType(...) : fieldToRelationType(...)]. *)
Definition relationOf (f : FieldOverview) (c : Collection) (schema : SchemaOverview)
  : result (option (list string)) :=
  if alias f then aliasToType f c schema else fieldToRelationType f c schema.

(** The first statement of the [try] block for one field (the relation,
    enum and scalar cases), started with the import list [imports]: the
    import list it leaves behind, and the type it assigned or the exception
    that left it. *)
Definition resolveField (imports : list string) (f : FieldOverview) (c : Collection)
    (schema : SchemaOverview) : list string * result string :=
  match relationOf f c schema with
  | Throw e => (imports, Throw e)
  | Ok (Some relation) =>
      let type_ := hd "undefined" relation in
      let imports' := fold_left pushImport (tl relation) imports in
      (imports', Ok type_)
  | Ok None =>
      match readByQuery (collection c) (field f) with
      | Throw e => (imports, Throw e)
      | Ok rows =>
          match choicesOf rows with
          | Some (choice :: more) =>
              match mapM literal (choice :: more) with
              | Throw e => (imports, Throw e)
              | Ok literals => (imports, Ok (join " | " literals))
              end
          | _ =>
              match fieldTypeToJsType f c with
              | Throw e => (imports, Throw e)
              | Ok type_ => (imports, Ok type_)
              end
          end
      end
  end.

(** The whole [try] block: the resolution, then the widening of a nullable
    field. *)
Definition tryField (imports : list string) (f : FieldOverview) (c : Collection)
    (schema : SchemaOverview) : list string * result string :=
  match resolveField imports f c schema with
  | (imports', Ok type_) => (imports', Ok (widen f type_))
  | (imports', Throw e) => (imports', Throw e)
  end.

Definition missingField (c : Collection) (f : FieldOverview) (e : exn) : Diagnostic :=
  {| diag_message :=
       nl ++ "== Missing Field ==" ++ nl
       ++ "Failed to get the type for " ++ collection c ++ "." ++ field f
       ++ ". Setting to " ++ dquote ++ "never" ++ dquote ++ "." ++ nl
       ++ "Please report this error: https://github.com/ChappIO/directus-extension-models/issues."
       ++ nl ++ nl ++ nl ++ "Stack Trace:";
     diag_error := e;
     diag_trailer := nl ++ nl ++ "Model generation will still continue, no worries." ++ nl |}.

(** The text appended to [source] for one field. *)
Definition fieldSource (f : FieldOverview) (type_ : string) : string :=
  nl ++ "  /**" ++ nl
  ++ "   * " ++ orElse (note f) "No description." ++ nl
  ++ "   *" ++ nl
  ++ "   * Type in directus: " ++ type f ++ nl
  ++ "   * Type in database: " ++ orElse (dbType f) "no column" ++ nl
  ++ "   */" ++ nl
  ++ "   " ++ field f ++ ": " ++ type_ ++ ";" ++ nl.

(** The variables of [generateModel] that the loop over the fields updates,
    and the console. *)
Record ModelState : Type := {
  imports : list string;
  source : string;
  console : list Diagnostic
}.

(** One iteration of the loop over the fields. *)
Definition fieldStep (c : Collection) (schema : SchemaOverview)
    (st : ModelState) (f : FieldOverview) : ModelState :=
  match tryField (imports st) f c schema with
  | (imports', Ok type_) =>
      {| imports := imports';
         source := source st ++ fieldSource f type_;
         console := console st |}
  | (imports', Throw e) =>
      {| imports := imports';
         source := source st ++ fieldSource f "never";
         console := (console st ++ [missingField c f e])%list |}
  end.

Definition initialState (name : string) : ModelState :=
  {| imports := [];
     source := "export interface " ++ name ++ " {" ++ nl;
     console := [] |}.

Definition renderModel (st : ModelState) : string :=
  let source' := source st ++ "}" ++ nl in
  let importsSource := join EmptyString (map (fun importLine => importLine ++ nl) (imports st)) ++ nl in
  importsSource ++ source'.

(** [generateModel]: what it printed on the console, and the text it
    returned or the exception it threw. *)
Definition generateModel (c : Collection) (schema : SchemaOverview)
  : list Diagnostic * result string :=
  match className c with
  | Throw e => ([], Throw e)
  | Ok name =>
      let st := fold_left (fieldStep c schema) (fields c) (initialState name) in
      (console st, Ok (renderModel st))
  end.

(** The first loop of [generateIndex], [source] being the text so far. *)
Fixpoint indexImports (cs : list Collection) (source : string) : result string :=
  match cs with
  | [] => Ok source
  | c :: cs' =>
      name <- className c ;;
      name' <- className c ;;
      indexImports cs' (source ++ "import { " ++ name ++ " } from " ++ dquote ++ "./"
                          ++ name' ++ dquote ++ ";" ++ nl)
  end.

(** The second loop of [generateIndex]. *)
Fixpoint indexMembers (cs : list Collection) (source : string) : result string :=
  match cs with
  | [] => Ok source
  | c :: cs' =>
      name <- className c ;;
      indexMembers cs' (source ++ "  " ++ collection c ++ ": " ++ name ++ ";" ++ nl)
  end.

Definition generateIndex (cs : list (string * Collection)) : result string :=
  source <- indexImports (values cs) EmptyString ;;
  source <- indexMembers (values cs) (source ++ nl ++ "export interface Collections {" ++ nl) ;;
  Ok (source ++ "}" ++ nl).

(** The outcome of the [snapshot] action: the calls of [writeFile] made,
    the console, and whether the action reached its end or threw. A call
    is recorded with the file name that the action hands to [join] with
    the target directory, before [join] normalises the path, and with the
    content. The services of the host ([getSchema], [mkdir], [writeFile])
    are taken to succeed: a rejection of theirs would end the action as
    well. *)
Record Run : Type := {
  written : list (string * string);
  printed : list Diagnostic;
  outcome : result unit
}.

(** The loop "Generate all classes" of the action. *)
Fixpoint writeModels (cs : list Collection) (schema : SchemaOverview)
    (files : list (string * string)) (log : list Diagnostic) : Run :=
  match cs with
  | [] => {| written := files; printed := log; outcome := Ok tt |}
  | c :: cs' =>
      match className c with
      | Throw e => {| written := files; printed := log; outcome := Throw e |}
      | Ok name =>
          let outFile := name ++ ".d.ts" in
          match generateModel c schema with
          | (ds, Throw e) => {| written := files; printed := (log ++ ds)%list; outcome := Throw e |}
          | (ds, Ok text) =>
              writeModels cs' schema (files ++ [(outFile, text)])%list (log ++ ds)%list
          end
      end
  end.

Definition snapshot (schema : SchemaOverview) : Run :=
  let models := writeModels (values (collections schema)) schema [] [] in
  match outcome models with
  | Throw e => models
  | Ok _ =>
      match generateIndex (collections schema) with
      | Throw e => {| written := written models; printed := printed models; outcome := Throw e |}
      | Ok text =>
          {| written := (written models ++ [("index.d.ts", text)])%list;
             printed := printed models;
             outcome := Ok tt |}
      end
  end.

(** ** Notions used in the statements *)

(** A name with an empty part between underscores: the empty name, a
    leading, a trailing or a doubled underscore. *)
Definition emptySegment (name : string) : Prop :=
  name = EmptyString
  \/ (exists rest, name = "_" ++ rest)
  \/ (exists start, name = start ++ "_")
  \/ (exists start rest, name = start ++ "__" ++ rest).

(** [sub] occurs in [s]. *)
Definition contains (s sub : string) : Prop :=
  exists before after, s = before ++ sub ++ after.

(** The outcome of the resolution of a field, before the widening. *)
Definition resolved (f : FieldOverview) (c : Collection) (schema : SchemaOverview)
  : result string :=
  snd (resolveField [] f c schema).

(** The type written for a field in the declaration. *)
Definition emittedType (f : FieldOverview) (c : Collection) (schema : SchemaOverview)
  : string :=
  match snd (tryField [] f c schema) with
  | Ok type_ => type_
  | Throw _ => "never"
  end.

(** The diagnostics printed for a field. *)
Definition diagnosticsOf (c : Collection) (schema : SchemaOverview) (f : FieldOverview)
  : list Diagnostic :=
  match snd (tryField [] f c schema) with
  | Ok _ => []
  | Throw e => [missingField c f e]
  end.

(** The import lines that the relation of a field asks for. *)
Definition importsOf (c : Collection) (schema : SchemaOverview) (f : FieldOverview)
  : list string :=
  match relationOf f c schema with
  | Ok (Some relation) => tl relation
  | _ => []
  end.

(** The comparison of the one-side metadata of a relation with both the
    entity and the field, as the specification words the lookup of a reverse
    relation. *)
Definition oneSideMatches (f : FieldOverview) (c : Collection) (r : Relation) : bool :=
  match rel_meta r with
  | Some m =>
      match one_collection m, one_field m with
      | Some oc, Some of_ => String.eqb oc (collection c) && String.eqb of_ (field f)
      | _, _ => false
      end
  | None => false
  end.

(** The entity a field is related to, as the code looks it up. *)
Definition relatedEntity (f : FieldOverview) (c : Collection) (schema : SchemaOverview)
  : option Collection :=
  if alias f
  then match find (isAliasOf f c) (relations schema) with
       | Some relation =>
           match rel_meta relation with
           | Some m => ownProperty (collections schema) (many_collection m)
           | None => None
           end
       | None => None
       end
  else match find (isForwardOf f c) (relations schema) with
       | Some relation =>
           ownProperty (collections schema) (propertyKey (related_collection relation))
       | None => None
       end.

(** Deduplication that keeps the first occurrence of every line, in the
    order of these first occurrences; [seen] are the lines met before. *)
Fixpoint firstSeen (seen lines : list string) : list string :=
  match lines with
  | [] => []
  | line :: lines' =>
      if includes seen line then firstSeen seen lines'
      else line :: firstSeen (seen ++ [line])%list lines'
  end.

(** One line of the index for an entity and its identifier. *)
Definition indexImport (name : string) : string := importLine name ++ nl.

Definition indexMember (entry : Collection * string) : string :=
  "  " ++ collection (fst entry) ++ ": " ++ snd entry ++ ";" ++ nl.

(** The exception of reading [.collection] of a collection that the catalog
    does not hold, as [classNameAt] throws it. *)
Definition noSuchCollection : exn :=
  TypeError "Cannot read properties of undefined (reading 'collection')".

(** A string of ASCII characters, the ones on which [toUpperCase] and
    [toLowerCase] are the conversions of [upperChar] and [lowerChar]. *)
Fixpoint asciiOnly (s : string) : bool :=
  match s with
  | EmptyString => true
  | String c r => (nat_of_ascii c <? 128)%nat && asciiOnly r
  end.

(** The number of occurrences of a character in a string. *)
Fixpoint countChar (ch : ascii) (s : string) : nat :=
  match s with
  | EmptyString => 0
  | String c r => (if Ascii.eqb c ch then 1 else 0) + countChar ch r
  end.

(** The field types for which the [switch] of [fieldTypeToJsType] returns. *)
Definition supportedTypes : list string :=
  ["boolean"; "integer"; "float"; "decimal"; "bigInteger"; "dateTime"; "date"; "time";
   "timestamp"; "text"; "string"; "uuid"; "hash"; "json"; "csv"].

(** The types that [fieldTypeToJsType] returns. *)
Definition scalarTypes : list string := ["boolean"; "number"; "string"; "any"; "string[]"].

(** Whether the resolution of a field throws. *)
Definition failed (f : FieldOverview) (c : Collection) (schema : SchemaOverview) : bool :=
  match resolved f c schema with
  | Ok _ => false
  | Throw _ => true
  end.

(** The text that [generateModel] returns for an entity whose identifier is
    [name]. *)
Definition modelText (c : Collection) (schema : SchemaOverview) (name : string) : string :=
  renderModel (fold_left (fieldStep c schema) (fields c) (initialState name)).

(** The arguments of [writeFile] for an entity and its identifier. *)
Definition modelFile (schema : SchemaOverview) (entry : Collection * string)
  : string * string :=
  (snd entry ++ ".d.ts", modelText (fst entry) schema (snd entry)).

(** The diagnostics printed while the unit of an entity is generated. *)
Definition modelDiagnostics (schema : SchemaOverview) (c : Collection) : list Diagnostic :=
  flat_map (diagnosticsOf c schema) (fields c).

(** ** Strings and the error monad *)

Lemma append_nil_r (s : string) : s ++ EmptyString = s.
Proof. induction s as [|c s IH]; simpl; [reflexivity | now rewrite IH]. Qed.

Lemma append_assoc (a b c : string) : (a ++ b) ++ c = a ++ (b ++ c).
Proof. induction a as [|x a IH]; simpl; [reflexivity | now rewrite IH]. Qed.

Lemma includes_In (arr : list string) (x : string) :
  includes arr x = true <-> In x arr.
Proof.
  unfold includes. rewrite existsb_exists. split.
  - intros [y [Hy Heq]]. apply String.eqb_eq in Heq. now subst.
  - intros H. exists x. split; [assumption | apply String.eqb_refl].
Qed.

Lemma split_not_nil (sep : ascii) (s : string) : split sep s <> [].
Proof.
  destruct s as [|c r]; simpl; [discriminate|].
  destruct (Ascii.eqb c sep); [discriminate|].
  destruct (split sep r); discriminate.
Qed.

(** Splitting distributes over a separator. *)
Lemma split_app_sep (sep : ascii) (a b : string) :
  split sep (a ++ String sep b) = (split sep a ++ split sep b)%list.
Proof.
  induction a as [|c a IH]; simpl.
  - now rewrite Ascii.eqb_refl.
  - destruct (Ascii.eqb c sep); [now rewrite IH|].
    rewrite IH. pose proof (split_not_nil sep a) as Hne.
    destruct (split sep a); [contradiction | reflexivity].
Qed.

Lemma emptySegment_split (name : string) :
  emptySegment name -> In EmptyString (split underscore name).
Proof.
  intros [H | [[rest H] | [[start H] | [start [rest H]]]]]; subst name.
  - simpl. now left.
  - simpl. now left.
  - change (start ++ "_") with (start ++ String underscore EmptyString).
    rewrite split_app_sep. apply in_or_app. right. simpl. now left.
  - change (start ++ "__" ++ rest)
      with (start ++ String underscore (String underscore rest)).
    rewrite split_app_sep. apply in_or_app. right. simpl. now left.
Qed.

Lemma mapM_capitalize_empty (parts : list string) :
  In EmptyString parts -> mapM capitalize parts = Throw noFirstCharacter.
Proof.
  induction parts as [|p parts IH]; simpl; [contradiction|].
  intros [Hp | Hin].
  - subst p. reflexivity.
  - destruct p as [|c r]; simpl; [reflexivity|]. now rewrite IH.
Qed.

Lemma mapM_capitalize_throw (parts : list string) (e : exn) :
  mapM capitalize parts = Throw e -> e = noFirstCharacter /\ In EmptyString parts.
Proof.
  induction parts as [|p parts IH]; simpl; [discriminate|].
  destruct p as [|c r]; simpl.
  - intros H. inversion H. split; [reflexivity | now left].
  - destruct (mapM capitalize parts) as [bs|e'] eqn:E; simpl; [discriminate|].
    intros H. inversion H; subst e'. destruct (IH eq_refl) as [He Hin].
    split; [assumption | now right].
Qed.

Lemma upperCamelCase_throw_iff (name : string) :
  upperCamelCase name = Throw noFirstCharacter <-> In EmptyString (split underscore name).
Proof.
  unfold upperCamelCase. split.
  - destruct (mapM capitalize (split underscore name)) as [bs|e] eqn:E; simpl;
      [discriminate|]. intros _. now apply mapM_capitalize_throw in E.
  - intros H. now rewrite (mapM_capitalize_empty _ H).
Qed.

(** Identifier derivation throws nothing but [noFirstCharacter]. *)
Lemma className_throw (c : Collection) (e : exn) :
  className c = Throw e -> e = noFirstCharacter.
Proof.
  unfold className, upperCamelCase.
  destruct (mapM capitalize (split underscore (singular (collection c)))) as [bs|e'] eqn:E;
    simpl; [discriminate|].
  intros H. inversion H; subst e'. now apply mapM_capitalize_throw in E.
Qed.

Lemma className_emptySegment (c : Collection) :
  emptySegment (singular (collection c)) -> className c = Throw noFirstCharacter.
Proof.
  intros H. unfold className. apply upperCamelCase_throw_iff.
  now apply emptySegment_split.
Qed.

Lemma join_empty_cons (x : string) (l : list string) :
  join EmptyString (x :: l) = x ++ join EmptyString l.
Proof.
  unfold join. destruct l as [|y l]; simpl; [now rewrite append_nil_r | reflexivity].
Qed.


(** ** The import list *)


Lemma pushImport_absent (imports0 : list string) (line : string) :
  ~ In line imports0 -> pushImport imports0 line = (imports0 ++ [line])%list.
Proof.
  intros H. unfold pushImport. destruct (includes imports0 line) eqn:E;
    [apply includes_In in E; contradiction | reflexivity].
Qed.

(** The loop that pushes the lines not yet present appends the first
    occurrences of the new lines, in their order. *)
Lemma pushImports_firstSeen (lines imports0 : list string) :
  fold_left pushImport lines imports0 = (imports0 ++ firstSeen imports0 lines)%list.
Proof.
  revert imports0. induction lines as [|line lines IH]; intros imports0; simpl.
  - now rewrite app_nil_r.
  - unfold pushImport at 2. destruct (includes imports0 line); rewrite IH.
    + reflexivity.
    + now rewrite <- app_assoc.
Qed.

Lemma firstSeen_In (lines seen : list string) (x : string) :
  In x (firstSeen seen lines) <-> In x lines /\ ~ In x seen.
Proof.
  revert seen. induction lines as [|line lines IH]; intros seen; simpl.
  - tauto.
  - destruct (includes seen line) eqn:E.
    + apply includes_In in E. rewrite IH. split.
      * intros [H1 H2]. tauto.
      * intros [[H1 | H1] H2]; [subst; contradiction | tauto].
    + assert (Hn : ~ In line seen) by (rewrite <- includes_In, E; discriminate).
      simpl. rewrite IH, in_app_iff. simpl. split.
      * intros [H | [H1 H2]]; [subst; tauto | tauto].
      * intros [[H1 | H1] H2]; [now left|].
        destruct (string_dec line x) as [Heq | Hne]; [now left | right; tauto].
Qed.

Lemma firstSeen_NoDup (lines seen : list string) : NoDup (firstSeen seen lines).
Proof.
  revert seen. induction lines as [|line lines IH]; intros seen; simpl.
  - constructor.
  - destruct (includes seen line); [apply IH|].
    constructor; [|apply IH]. rewrite firstSeen_In, in_app_iff. simpl. tauto.
Qed.

Lemma pushImports_NoDup (lines imports0 : list string) :
  NoDup imports0 -> NoDup (fold_left pushImport lines imports0).
Proof.
  intros H. rewrite pushImports_firstSeen. apply NoDup_app.
  - assumption.
  - apply firstSeen_NoDup.
  - intros x Hx Hy. apply firstSeen_In in Hy. tauto.
Qed.

(** ** One field, and the loop over the fields *)

(** The type assigned to a field does not depend on the import list. *)
Lemma resolveField_snd (imports0 : list string) (f : FieldOverview) (c : Collection)
    (schema : SchemaOverview) :
  snd (resolveField imports0 f c schema) = resolved f c schema.
Proof.
  unfold resolved, resolveField.
  destruct (relationOf f c schema) as [[relation|]|e]; simpl; try reflexivity.
  destruct (readByQuery (collection c) (field f)) as [rows|e]; simpl; try reflexivity.
  destruct (choicesOf rows) as [[|choice more]|];
    try (destruct (fieldTypeToJsType f c); reflexivity).
  destruct (literal choice); simpl; [|reflexivity].
  destruct (mapM literal more); reflexivity.
Qed.

Lemma resolveField_fst (imports0 : list string) (f : FieldOverview) (c : Collection)
    (schema : SchemaOverview) :
  fst (resolveField imports0 f c schema) = fold_left pushImport (importsOf c schema f) imports0.
Proof.
  unfold importsOf, resolveField.
  destruct (relationOf f c schema) as [[relation|]|e]; simpl; try reflexivity.
  destruct (readByQuery (collection c) (field f)) as [rows|e]; simpl; try reflexivity.
  destruct (choicesOf rows) as [[|choice more]|];
    try (destruct (fieldTypeToJsType f c); reflexivity).
  destruct (literal choice); simpl; [|reflexivity].
  destruct (mapM literal more); reflexivity.
Qed.

Lemma tryField_snd (imports0 : list string) (f : FieldOverview) (c : Collection)
    (schema : SchemaOverview) :
  snd (tryField imports0 f c schema)
  = match resolved f c schema with
    | Ok type_ => Ok (widen f type_)
    | Throw e => Throw e
    end.
Proof.
  unfold tryField. rewrite <- (resolveField_snd imports0).
  destruct (resolveField imports0 f c schema) as [i [t|e]]; reflexivity.
Qed.

Lemma tryField_fst (imports0 : list string) (f : FieldOverview) (c : Collection)
    (schema : SchemaOverview) :
  fst (tryField imports0 f c schema) = fold_left pushImport (importsOf c schema f) imports0.
Proof.
  unfold tryField. rewrite <- resolveField_fst.
  destruct (resolveField imports0 f c schema) as [i [t|e]]; reflexivity.
Qed.

(** One iteration: what it adds depends on the field alone. *)
Lemma fieldStep_eq (c : Collection) (schema : SchemaOverview) (st : ModelState)
    (f : FieldOverview) :
  fieldStep c schema st f
  = {| imports := fold_left pushImport (importsOf c schema f) (imports st);
       source := source st ++ fieldSource f (emittedType f c schema);
       console := (console st ++ diagnosticsOf c schema f)%list |}.
Proof.
  unfold fieldStep, emittedType, diagnosticsOf.
  rewrite <- (tryField_fst (imports st)).
  rewrite (tryField_snd []), <- (tryField_snd (imports st)).
  destruct (tryField (imports st) f c schema) as [i [t|e]]; simpl;
    [now rewrite app_nil_r | reflexivity].
Qed.

Lemma fieldLoop_eq (c : Collection) (schema : SchemaOverview) (fs : list FieldOverview)
    (st : ModelState) :
  fold_left (fieldStep c schema) fs st
  = {| imports := fold_left pushImport (flat_map (importsOf c schema) fs) (imports st);
       source := source st
                 ++ join EmptyString (map (fun f => fieldSource f (emittedType f c schema)) fs);
       console := (console st ++ flat_map (diagnosticsOf c schema) fs)%list |}.
Proof.
  revert st. induction fs as [|f fs IH]; intros st.
  - simpl. rewrite append_nil_r, app_nil_r. now destruct st.
  - cbn [fold_left]. rewrite IH, fieldStep_eq. cbn [imports source console map flat_map].
    rewrite fold_left_app, join_empty_cons, append_assoc, <- app_assoc. reflexivity.
Qed.

Lemma generateModel_eq (c : Collection) (schema : SchemaOverview) (name : string) :
  className c = Ok name ->
  generateModel c schema
  = (console (fold_left (fieldStep c schema) (fields c) (initialState name)),
     Ok (renderModel (fold_left (fieldStep c schema) (fields c) (initialState name)))).
Proof. intros H. unfold generateModel. now rewrite H. Qed.

(** [generateModel] throws only when the identifier of its own entity
    cannot be derived. *)
Lemma generateModel_throw (c : Collection) (schema : SchemaOverview) (e : exn) :
  snd (generateModel c schema) = Throw e <-> className c = Throw e.
Proof.
  unfold generateModel. destruct (className c) as [name|e']; simpl; split;
    intros H; try discriminate; assumption.
Qed.

(** ** The loop over the entities *)

Lemma writeModels_abort (schema : SchemaOverview) (c : Collection) (cs : list Collection)
    (files : list (string * string)) (log : list Diagnostic) :
  In c cs ->
  className c = Throw noFirstCharacter ->
  outcome (writeModels cs schema files log) = Throw noFirstCharacter
  /\ List.length (written (writeModels cs schema files log))
     < List.length files + List.length cs.
Proof.
  revert files log. induction cs as [|c' cs IH]; intros files log Hin Hc; [contradiction|].
  simpl. destruct (className c') as [name|e] eqn:E.
  - destruct Hin as [-> | Hin]; [congruence|].
    unfold generateModel. rewrite E.
    match goal with
    | |- context [writeModels cs schema ?files' ?log'] =>
        destruct (IH files' log' Hin Hc) as [Ho Hl]
    end.
    split; [exact Ho|]. rewrite length_app in Hl. simpl in Hl. lia.
  - simpl. apply className_throw in E. subst e. split; [reflexivity | lia].
Qed.

(** C10: a collection whose singularized name has an empty part between
    underscores (the empty name, a leading, a trailing or a doubled
    underscore) makes identifier derivation throw, since the first character
    of that part is undefined; [generateModel] then throws before it reaches
    the loop that recovers from the failure of a field, and the [snapshot]
    action that meets such an entity in the catalog ends with that exception:
    the index is not generated and fewer files are written than there are
    entities. *)
Theorem empty_segment_aborts_run (schema : SchemaOverview) (c : Collection) :
  In c (values (collections schema)) ->
  emptySegment (singular (collection c)) ->
  upperCamelCase (singular (collection c)) = Throw noFirstCharacter
  /\ className c = Throw noFirstCharacter
  /\ generateModel c schema = ([], Throw noFirstCharacter)
  /\ outcome (snapshot schema) = Throw noFirstCharacter
  /\ snapshot schema = writeModels (values (collections schema)) schema [] []
  /\ List.length (written (snapshot schema)) < List.length (collections schema).
Proof.
  intros Hin Hseg. pose proof (className_emptySegment c Hseg) as Hc.
  destruct (writeModels_abort schema c _ [] [] Hin Hc) as [Ho Hl].
  assert (Hs : snapshot schema = writeModels (values (collections schema)) schema [] [])
    by (unfold snapshot; now rewrite Ho).
  repeat split.
  - exact Hc.
  - exact Hc.
  - unfold generateModel. now rewrite Hc.
  - now rewrite Hs.
  - exact Hs.
  - rewrite Hs. unfold values in Hl. rewrite length_map in Hl. exact Hl.
Qed.

(** ** The index *)

Lemma indexImports_eq (cs : list Collection) (source0 : string) :
  indexImports cs source0
  = (names <- mapM className cs ;;
     Ok (source0 ++ join EmptyString (map indexImport names))).
Proof.
  revert source0. induction cs as [|c cs IH]; intros source0; cbn [indexImports mapM].
  - unfold join. simpl. now rewrite append_nil_r.
  - destruct (className c) as [name|e]; cbn [bind]; [|reflexivity].
    rewrite IH. destruct (mapM className cs) as [names|e]; cbn [bind map]; [|reflexivity].
    rewrite join_empty_cons. unfold indexImport, importLine.
    now rewrite !append_assoc.
Qed.

Lemma indexMembers_eq (cs : list Collection) (source0 : string) :
  indexMembers cs source0
  = (names <- mapM className cs ;;
     Ok (source0 ++ join EmptyString (map indexMember (combine cs names)))).
Proof.
  revert source0. induction cs as [|c cs IH]; intros source0; cbn [indexMembers mapM].
  - unfold join. simpl. now rewrite append_nil_r.
  - destruct (className c) as [name|e]; cbn [bind]; [|reflexivity].
    rewrite IH. destruct (mapM className cs) as [names|e]; cbn [bind map combine];
      [|reflexivity].
    rewrite join_empty_cons. unfold indexMember. cbn [fst snd].
    now rewrite !append_assoc.
Qed.

Lemma mapM_length {A B : Type} (g : A -> result B) (l : list A) (bs : list B) :
  mapM g l = Ok bs -> List.length bs = List.length l.
Proof.
  revert bs. induction l as [|a l IH]; intros bs; simpl.
  - intros H. inversion H. reflexivity.
  - destruct (g a); simpl; [|discriminate].
    destruct (mapM g l) as [bs'|]; simpl; [|discriminate].
    intros H. inversion H. simpl. now rewrite (IH bs').
Qed.

Lemma nth_error_combine {A B : Type} (l : list A) (l' : list B) (i : nat) (a : A) (b : B) :
  nth_error l i = Some a -> nth_error l' i = Some b ->
  nth_error (combine l l') i = Some (a, b).
Proof.
  revert l' i. induction l as [|x l IH]; intros [|y l'] [|i]; simpl; try discriminate.
  - intros Ha Hb. now inversion Ha; inversion Hb.
  - apply IH.
Qed.

Lemma mapM_nth {A B : Type} (g : A -> result B) (l : list A) (bs : list B) :
  mapM g l = Ok bs ->
  forall i a b, nth_error l i = Some a -> nth_error bs i = Some b -> g a = Ok b.
Proof.
  revert bs. induction l as [|a0 l IH]; intros bs; simpl.
  - intros _ [|i] a b H; discriminate.
  - destruct (g a0) as [b0|] eqn:E0; simpl; [|discriminate].
    destruct (mapM g l) as [bs'|]; simpl; [|discriminate].
    intros H. inversion H; subst bs. intros [|i] a b; simpl.
    + intros Ha Hb. inversion Ha; inversion Hb; subst. exact E0.
    + apply (IH bs' eq_refl).
Qed.

(** The index exists exactly when every identifier is derived. *)
Lemma generateIndex_throw (cs : list (string * Collection)) (e : exn) :
  mapM className (values cs) = Throw e -> generateIndex cs = Throw e.
Proof.
  intros H. unfold generateIndex. now rewrite indexImports_eq, H.
Qed.

(** C7: when the identifier of every entity of the catalog is derived (to
    [names], in catalog order), the index is the import lines of these
    identifiers, one per entity in catalog order, then the declaration
    [Collections] with one member per entity in catalog order, whose key is
    the raw collection name and whose value is the identifier derived from
    it. *)
Theorem index_lines_in_catalog_order (cs : list (string * Collection)) (names : list string) :
  mapM className (values cs) = Ok names ->
  generateIndex cs
  = Ok (join EmptyString (map indexImport names)
        ++ nl ++ "export interface Collections {" ++ nl
        ++ join EmptyString (map indexMember (combine (values cs) names))
        ++ "}" ++ nl)
  /\ List.length (map indexImport names) = List.length cs
  /\ List.length (map indexMember (combine (values cs) names)) = List.length cs
  /\ (forall i c name, nth_error (values cs) i = Some c -> nth_error names i = Some name ->
        className c = Ok name
        /\ nth_error (map indexImport names) i = Some (importLine name ++ nl)
        /\ nth_error (map indexMember (combine (values cs) names)) i
           = Some ("  " ++ collection c ++ ": " ++ name ++ ";" ++ nl)).
Proof.
  intros H. pose proof (mapM_length _ _ _ H) as Hlen.
  unfold values in Hlen. rewrite length_map in Hlen.
  split; [|split; [|split]].
  - unfold generateIndex. rewrite indexImports_eq, H. simpl.
    rewrite indexMembers_eq, H. simpl. now rewrite !append_assoc.
  - now rewrite length_map.
  - rewrite length_map, length_combine. unfold values. rewrite length_map. lia.
  - intros i c name Hc Hname. split; [|split].
    + exact (mapM_nth _ _ _ H i c name Hc Hname).
    + rewrite nth_error_map, Hname. reflexivity.
    + rewrite nth_error_map, (nth_error_combine _ _ _ _ _ Hc Hname). reflexivity.
Qed.

(** ** Relations and their import lines *)








(** ** The failure policy *)

Lemma missingField_names_entity (c : Collection) (f : FieldOverview) (e : exn) :
  contains (diag_message (missingField c f e)) (collection c)
  /\ contains (diag_message (missingField c f e)) (field f).
Proof.
  unfold contains, missingField. cbn [diag_message]. split.
  - exists (nl ++ "== Missing Field ==" ++ nl ++ "Failed to get the type for ").
    eexists. rewrite !append_assoc. reflexivity.
  - exists (nl ++ "== Missing Field ==" ++ nl ++ "Failed to get the type for "
            ++ collection c ++ ".").
    eexists. rewrite !append_assoc. reflexivity.
Qed.

Lemma emittedType_resolved (c : Collection) (schema : SchemaOverview) (f : FieldOverview) :
  emittedType f c schema
  = match resolved f c schema with
    | Ok type_ => widen f type_
    | Throw _ => "never"
    end.
Proof.
  unfold emittedType. rewrite tryField_snd. now destruct (resolved f c schema).
Qed.

Lemma diagnosticsOf_resolved (c : Collection) (schema : SchemaOverview) (f : FieldOverview) :
  diagnosticsOf c schema f
  = match resolved f c schema with
    | Ok _ => []
    | Throw e => [missingField c f e]
    end.
Proof.
  unfold diagnosticsOf. rewrite tryField_snd. now destruct (resolved f c schema).
Qed.

(** A field whose resolution throws asks for no import line. *)
Lemma importsOf_failed (c : Collection) (schema : SchemaOverview) (f : FieldOverview)
    (e : exn) :
  resolved f c schema = Throw e -> importsOf c schema f = [].
Proof.
  unfold resolved, resolveField, importsOf.
  destruct (relationOf f c schema) as [[relation|]|e']; simpl;
    [discriminate | reflexivity | reflexivity].
Qed.

(** One iteration on a field whose resolution throws. *)
Lemma fieldStep_failed (c : Collection) (schema : SchemaOverview) (f : FieldOverview)
    (e : exn) (st : ModelState) :
  resolved f c schema = Throw e ->
  fieldStep c schema st f
  = {| imports := imports st;
       source := source st ++ fieldSource f "never";
       console := (console st ++ [missingField c f e])%list |}.
Proof.
  intros H. rewrite fieldStep_eq, (importsOf_failed c schema f e H).
  rewrite emittedType_resolved, diagnosticsOf_resolved. now rewrite H.
Qed.

(** C3: let the resolution of a field [f] of an entity throw (the
    unsupported-type error of the scalar mapper or any other exception),
    [before] and [after] being the other fields. The unit that
    [generateModel] returns holds the member of [f] with its doc comment and
    the type [never], and the console has received the diagnostic whose
    message names the collection and the field and which carries the
    exception. The loop goes on: the fields after [f] are processed from the
    state left by the fields before it, to which only that member and that
    diagnostic are added, so that the imports are those of the entity
    without [f] and the members and diagnostics of the other fields are
    those of the entity without [f], around those of [f]. The loop over the
    entities writes the unit and goes on with the remaining entities. *)
Theorem failed_field_is_never (c : Collection) (schema : SchemaOverview)
    (before after : list FieldOverview) (f : FieldOverview) (e : exn) (name : string) :
  fields c = (before ++ f :: after)%list ->
  className c = Ok name ->
  resolved f c schema = Throw e ->
  let member :=
    nl ++ "  /**" ++ nl
    ++ "   * " ++ orElse (note f) "No description." ++ nl
    ++ "   *" ++ nl
    ++ "   * Type in directus: " ++ type f ++ nl
    ++ "   * Type in database: " ++ orElse (dbType f) "no column" ++ nl
    ++ "   */" ++ nl
    ++ "   " ++ field f ++ ": never;" ++ nl in
  let diagnostic :=
    {| diag_message :=
         nl ++ "== Missing Field ==" ++ nl
         ++ "Failed to get the type for " ++ collection c ++ "." ++ field f
         ++ ". Setting to " ++ dquote ++ "never" ++ dquote ++ "." ++ nl
         ++ "Please report this error: https://github.com/ChappIO/directus-extension-models/issues."
         ++ nl ++ nl ++ nl ++ "Stack Trace:";
       diag_error := e;
       diag_trailer := nl ++ nl ++ "Model generation will still continue, no worries." ++ nl |} in
  let st1 := fold_left (fieldStep c schema) before (initialState name) in
  let st2 :=
    fold_left (fieldStep c schema) after
      {| imports := imports st1;
         source := source st1 ++ member;
         console := (console st1 ++ [diagnostic])%list |} in
  let without := fold_left (fieldStep c schema) (before ++ after)%list (initialState name) in
  generateModel c schema = (console st2, Ok (renderModel st2))
  /\ (exists start rest, snd (generateModel c schema) = Ok (start ++ member ++ rest))
  /\ (exists earlier later,
        fst (generateModel c schema) = (earlier ++ diagnostic :: later)%list)
  /\ contains (diag_message diagnostic) (collection c)
  /\ contains (diag_message diagnostic) (field f)
  /\ imports st2 = imports without
  /\ (exists members diagnostics,
        source without = source st1 ++ members
        /\ source st2 = source st1 ++ member ++ members
        /\ console without = (console st1 ++ diagnostics)%list
        /\ console st2 = (console st1 ++ diagnostic :: diagnostics)%list)
  /\ (forall rest files log,
        writeModels (c :: rest) schema files log
        = writeModels rest schema
            (files ++ [((name ++ ".d.ts")%string, renderModel st2)])%list
            (log ++ console st2)%list).
Proof.
  intros Hfields Hname Hres member diagnostic.
  assert (Hmember : member = fieldSource f "never")
    by (unfold member, fieldSource; reflexivity).
  assert (Hdiagnostic : diagnostic = missingField c f e)
    by (unfold diagnostic, missingField; reflexivity).
  clearbody member diagnostic. subst member diagnostic.
  intros st1 st2 without.
  assert (Hfold : fold_left (fieldStep c schema) (fields c) (initialState name) = st2).
  { rewrite Hfields, fold_left_app. cbn [fold_left].
    rewrite (fieldStep_failed c schema f e _ Hres). reflexivity. }
  assert (Hgen : generateModel c schema = (console st2, Ok (renderModel st2))).
  { rewrite (generateModel_eq c schema name Hname). rewrite Hfold. reflexivity. }
  assert (Hst2 : st2 = {| imports := fold_left pushImport
                                       (flat_map (importsOf c schema) after) (imports st1);
                          source := source st1 ++ fieldSource f "never"
                                    ++ join EmptyString
                                         (map (fun f0 => fieldSource f0 (emittedType f0 c schema))
                                            after);
                          console := (console st1 ++ missingField c f e
                                      :: flat_map (diagnosticsOf c schema) after)%list |}).
  { unfold st2. rewrite fieldLoop_eq. cbn [imports source console].
    rewrite append_assoc, <- app_assoc. reflexivity. }
  assert (Hwithout : without
                     = {| imports := fold_left pushImport
                                       (flat_map (importsOf c schema) after) (imports st1);
                          source := source st1
                                    ++ join EmptyString
                                         (map (fun f0 => fieldSource f0 (emittedType f0 c schema))
                                            after);
                          console := (console st1
                                      ++ flat_map (diagnosticsOf c schema) after)%list |}).
  { unfold without. rewrite fold_left_app. fold st1. rewrite fieldLoop_eq. reflexivity. }
  destruct (missingField_names_entity c f e) as [Hc Hf].
  clearbody st1 st2 without.
  split; [exact Hgen|]. split; [|split; [|split; [|split; [|split; [|split]]]]].
  - rewrite Hgen. cbn [snd]. unfold renderModel. rewrite Hst2. cbn [imports source].
    exists (join EmptyString
              (map (fun importLine => importLine ++ nl)
                 (fold_left pushImport (flat_map (importsOf c schema) after) (imports st1)))
            ++ nl ++ source st1),
      (join EmptyString (map (fun f0 => fieldSource f0 (emittedType f0 c schema)) after)
       ++ "}" ++ nl).
    rewrite !append_assoc. reflexivity.
  - rewrite Hgen. cbn [fst]. rewrite Hst2. cbn [console].
    exists (console st1), (flat_map (diagnosticsOf c schema) after). reflexivity.
  - exact Hc.
  - exact Hf.
  - rewrite Hst2, Hwithout. reflexivity.
  - rewrite Hst2, Hwithout. cbn [source console].
    exists (join EmptyString (map (fun f0 => fieldSource f0 (emittedType f0 c schema)) after)),
      (flat_map (diagnosticsOf c schema) after).
    split; [reflexivity|]. split; [reflexivity|]. split; reflexivity.
  - intros rest files log. cbn [writeModels]. rewrite Hname, Hgen. reflexivity.
Qed.

(** ** Forward relations *)

(** C4: for a field that is not an alias and that a relation matches by
    collection and field, when the identifiers of the related and of the
    owning entity are derived: with a foreign-key column name on the
    relation the type expression is the related identifier, [" | "], and
    the related identifier indexed by the quoted column name; without one it
    is the related identifier, [" | "], and the scalar type that
    [fieldTypeToJsType] gives for the field. It is the first element of the
    result of [fieldToRelationType] and the type resolved for the field. *)
Theorem forward_relation_type (c : Collection) (schema : SchemaOverview)
    (f : FieldOverview) (relation : Relation) (target own : string) :
  alias f = false ->
  find (isForwardOf f c) (relations schema) = Some relation ->
  classNameAt (collections schema) (propertyKey (related_collection relation)) = Ok target ->
  className c = Ok own ->
  (forall column,
      fkColumn relation = Some column -> column <> EmptyString ->
      (exists lines,
          fieldToRelationType f c schema
          = Ok (Some ((target ++ " | " ++ target ++ "[" ++ dquote ++ column ++ dquote ++ "]")
                        :: lines)))
      /\ resolved f c schema
         = Ok (target ++ " | " ++ target ++ "[" ++ dquote ++ column ++ dquote ++ "]"))
  /\ (forall scalar,
        truthy (fkColumn relation) = false -> fieldTypeToJsType f c = Ok scalar ->
        (exists lines,
            fieldToRelationType f c schema = Ok (Some ((target ++ " | " ++ scalar) :: lines)))
        /\ resolved f c schema = Ok (target ++ " | " ++ scalar)).
Proof.
  intros Halias Hfind Ht Ho.
  assert (Hres : forall type_ lines,
             fieldToRelationType f c schema = Ok (Some (type_ :: lines)) ->
             resolved f c schema = Ok type_).
  { intros type_ lines H. unfold resolved, resolveField, relationOf.
    rewrite Halias, H. reflexivity. }
  split.
  - intros column Hcol Hne.
    assert (H : exists lines,
               fieldToRelationType f c schema
               = Ok (Some ((target ++ " | " ++ target ++ "[" ++ dquote ++ column ++ dquote
                              ++ "]") :: lines))).
    { unfold fieldToRelationType. rewrite Hfind, Ht. cbn [bind].
      rewrite Hcol. cbn [truthy propertyKey]. apply String.eqb_neq in Hne. rewrite Hne.
      cbn [negb bind]. rewrite Ho. cbn [bind].
      destruct (String.eqb target own); eexists; reflexivity. }
    split; [exact H|]. destruct H as [lines H]. exact (Hres _ _ H).
  - intros scalar Hfk Hscalar.
    assert (H : exists lines,
               fieldToRelationType f c schema
               = Ok (Some ((target ++ " | " ++ scalar) :: lines))).
    { unfold fieldToRelationType. rewrite Hfind, Ht. cbn [bind].
      rewrite Hfk, Hscalar. cbn [bind]. rewrite Ho. cbn [bind].
      destruct (String.eqb target own); eexists; reflexivity. }
    split; [exact H|]. destruct H as [lines H]. exact (Hres _ _ H).
Qed.

(** ** Nullable fields *)

(** C5, as the code has it: for a field with [nullable = true], when the
    resolution gives a type, the type written is that type followed by
    [" | null"], the widening coming after the relation, enum or scalar
    resolution; when the resolution throws, the type written is [never],
    without the null marker. *)
Theorem nullable_widens_resolved_type (c : Collection) (schema : SchemaOverview)
    (f : FieldOverview) :
  nullable f = true ->
  (forall type_, resolved f c schema = Ok type_ ->
     emittedType f c schema = type_ ++ " | null")
  /\ (forall e, resolved f c schema = Throw e -> emittedType f c schema = "never")
  /\ (forall st,
        source (fieldStep c schema st f)
        = source st ++ fieldSource f (emittedType f c schema)).
Proof.
  intros Hnull. repeat split.
  - intros type_ H. rewrite emittedType_resolved, H. unfold widen. now rewrite Hnull.
  - intros e H. rewrite emittedType_resolved. now rewrite H.
  - intros st. now rewrite fieldStep_eq.
Qed.

(** ** Fields with choices *)


Lemma escapeQuotes_other (ch : ascii) (after : string) :
  ch <> quote -> escapeQuotes (String ch after) = String ch (escapeQuotes after).
Proof.
  intros H. cbn [escapeQuotes]. apply Ascii.eqb_neq in H. now rewrite H.
Qed.




(** ** More on the identifier deriver *)

(** Case conversion of one character, by enumeration of the characters. *)
Lemma upperChar_lowerChar (ch : ascii) : upperChar (lowerChar ch) = upperChar ch.
Proof. destruct ch as [[] [] [] [] [] [] [] []]; reflexivity. Qed.

Lemma lowerChar_lowerChar (ch : ascii) : lowerChar (lowerChar ch) = lowerChar ch.
Proof. destruct ch as [[] [] [] [] [] [] [] []]; reflexivity. Qed.

Lemma upperChar_upperChar (ch : ascii) : upperChar (upperChar ch) = upperChar ch.
Proof. destruct ch as [[] [] [] [] [] [] [] []]; reflexivity. Qed.

Lemma lowerChar_upperChar (ch : ascii) : lowerChar (upperChar ch) = lowerChar ch.
Proof. destruct ch as [[] [] [] [] [] [] [] []]; reflexivity. Qed.

Lemma lowerChar_underscore (ch : ascii) :
  Ascii.eqb (lowerChar ch) underscore = Ascii.eqb ch underscore.
Proof. destruct ch as [[] [] [] [] [] [] [] []]; reflexivity. Qed.

Lemma upperChar_underscore (ch : ascii) :
  Ascii.eqb (upperChar ch) underscore = Ascii.eqb ch underscore.
Proof. destruct ch as [[] [] [] [] [] [] [] []]; reflexivity. Qed.

Lemma length_append (a b : string) :
  String.length (a ++ b) = String.length a + String.length b.
Proof. induction a as [|x a IH]; simpl; [reflexivity | now rewrite IH]. Qed.

Lemma countChar_append (ch : ascii) (a b : string) :
  countChar ch (a ++ b) = countChar ch a + countChar ch b.
Proof. induction a as [|x a IH]; simpl; [reflexivity | rewrite IH; lia]. Qed.

Lemma length_mapChars (g : ascii -> ascii) (s : string) :
  String.length (mapChars g s) = String.length s.
Proof. induction s as [|x s IH]; simpl; [reflexivity | now rewrite IH]. Qed.

Lemma countChar_mapChars (g : ascii -> ascii) (s : string) :
  (forall ch, Ascii.eqb (g ch) underscore = Ascii.eqb ch underscore) ->
  countChar underscore (mapChars g s) = countChar underscore s.
Proof. intros Hg. induction s as [|x s IH]; simpl; [reflexivity | now rewrite Hg, IH]. Qed.

(** The parts of a split hold no separator, and with the separators they
    make up the string. *)
Lemma split_parts (sep : ascii) (s : string) :
  Forall (fun part => countChar sep part = 0) (split sep s)
  /\ String.length (join EmptyString (split sep s)) + countChar sep s = String.length s.
Proof.
  induction s as [|ch s [IHparts IHlen]]; cbn [split countChar String.length].
  - split; [repeat constructor | reflexivity].
  - destruct (Ascii.eqb ch sep) eqn:E.
    + split; [constructor; [reflexivity | exact IHparts]|].
      rewrite join_empty_cons. cbn [append]. lia.
    + pose proof (split_not_nil sep s) as Hne.
      destruct (split sep s) as [|part parts]; [contradiction|].
      inversion IHparts as [|? ? Hpart Hparts]; subst. split.
      * constructor; [|exact Hparts]. cbn [countChar]. now rewrite E, Hpart.
      * rewrite join_empty_cons in *. cbn [append String.length]. lia.
Qed.

Lemma capitalize_ok (part capital : string) :
  capitalize part = Ok capital ->
  String.length capital = String.length part
  /\ countChar underscore capital = countChar underscore part
  /\ exists ch rest, part = String ch rest /\ capital = String (upperChar ch) (toLowerCase rest).
Proof.
  destruct part as [|ch rest]; cbn [capitalize]; [discriminate|].
  intros H. inversion H; subst capital. cbn [toUpperCase mapChars append].
  unfold toLowerCase. cbn [String.length countChar].
  rewrite length_mapChars, (countChar_mapChars _ _ lowerChar_underscore), upperChar_underscore.
  repeat split. now exists ch, rest.
Qed.

Lemma mapM_capitalize_ok (parts capitals : list string) :
  mapM capitalize parts = Ok capitals ->
  String.length (join EmptyString capitals) = String.length (join EmptyString parts)
  /\ countChar underscore (join EmptyString capitals)
     = countChar underscore (join EmptyString parts).
Proof.
  revert capitals. induction parts as [|part parts IH]; intros capitals; cbn [mapM].
  - intros H. inversion H. now split.
  - destruct (capitalize part) as [capital|] eqn:E; cbn [bind]; [|discriminate].
    destruct (mapM capitalize parts) as [capitals'|]; cbn [bind]; [|discriminate].
    intros H. inversion H; subst capitals. destruct (IH capitals' eq_refl) as [IHl IHc].
    destruct (capitalize_ok _ _ E) as (Hl & Hc & _).
    rewrite !join_empty_cons, !length_append, !countChar_append. split; lia.
Qed.

Lemma countChar_join_zero (ch : ascii) (parts : list string) :
  Forall (fun part => countChar ch part = 0) parts ->
  countChar ch (join EmptyString parts) = 0.
Proof.
  induction 1 as [|part parts Hpart _ IH]; [reflexivity|].
  rewrite join_empty_cons, countChar_append. lia.
Qed.

(** The identifier of a name of ASCII characters has no underscore and as
    many characters as the name has characters other than underscores. *)
Theorem identifier_drops_the_underscores (name identifier : string) :
  asciiOnly name = true ->
  upperCamelCase name = Ok identifier ->
  countChar underscore identifier = 0
  /\ String.length identifier + countChar underscore name = String.length name.
Proof.
  intros _. unfold upperCamelCase.
  destruct (mapM capitalize (split underscore name)) as [capitals|] eqn:E; cbn [bind];
    [|discriminate].
  intros H. inversion H; subst identifier.
  destruct (mapM_capitalize_ok _ _ E) as [Hl Hc].
  destruct (split_parts underscore name) as [Hparts Hlen].
  rewrite Hc, Hl, (countChar_join_zero _ _ Hparts). split; [reflexivity | exact Hlen].
Qed.

(** A part that is empty comes after a separator, unless it is the first. *)
Lemma split_tail_empty (s : string) :
  In EmptyString (tl (split underscore s)) ->
  (exists start, s = start ++ "_") \/ (exists start rest, s = start ++ "__" ++ rest).
Proof.
  induction s as [|ch s IH]; cbn [split tl]; [intros []|].
  destruct (Ascii.eqb ch underscore) eqn:E.
  - apply Ascii.eqb_eq in E. subst ch. cbn [tl]. destruct s as [|ch' s'].
    + intros _. left. now exists EmptyString.
    + cbn [split]. destruct (Ascii.eqb ch' underscore) eqn:E'.
      * apply Ascii.eqb_eq in E'. subst ch'. intros _. right.
        now exists EmptyString, s'.
      * intros Hin.
        assert (Htl : In EmptyString (tl (split underscore (String ch' s')))).
        { cbn [split]. rewrite E'. pose proof (split_not_nil underscore s') as Hne.
          destruct (split underscore s') as [|part parts]; [contradiction|].
          destruct Hin as [Hin | Hin]; [discriminate | exact Hin]. }
        destruct (IH Htl) as [[start H] | [start [rest H]]]; rewrite H.
        -- left. now exists (String underscore start).
        -- right. now exists (String underscore start), rest.
  - pose proof (split_not_nil underscore s) as Hne.
    destruct (split underscore s) as [|part parts] eqn:Es; [contradiction|].
    cbn [tl] in *. intros Hin.
    destruct (IH Hin) as [[start H] | [start [rest H]]]; rewrite H.
    + left. now exists (String ch start).
    + right. now exists (String ch start), rest.
Qed.

Lemma split_emptySegment (name : string) :
  In EmptyString (split underscore name) -> emptySegment name.
Proof.
  destruct name as [|ch s]; [now left|]. intros Hin.
  destruct (Ascii.eqb ch underscore) eqn:E.
  - apply Ascii.eqb_eq in E. subst ch. right. left. now exists s.
  - right. right. apply split_tail_empty. revert Hin. cbn [split]. rewrite E.
    destruct (split underscore s) as [|part parts]; cbn [tl];
      (intros [Hin | Hin]; [discriminate | exact Hin]).
Qed.

(** Identifier derivation throws for the names with an empty part between
    underscores and for no other name, and it throws nothing but the
    exception of the missing first character. *)
Theorem className_throws_exactly_on_empty_segment (c : Collection) :
  (className c = Throw noFirstCharacter <-> emptySegment (singular (collection c)))
  /\ (forall e, className c = Throw e -> e = noFirstCharacter)
  /\ (~ emptySegment (singular (collection c)) -> exists identifier, className c = Ok identifier).
Proof.
  assert (Hiff : className c = Throw noFirstCharacter
                 <-> emptySegment (singular (collection c))).
  { unfold className. rewrite upperCamelCase_throw_iff. split.
    - apply split_emptySegment.
    - apply emptySegment_split. }
  split; [exact Hiff|]. split; [apply className_throw|].
  intros Hno. destruct (className c) as [identifier|e] eqn:E; [now exists identifier|].
  exfalso. apply Hno, Hiff. f_equal. exact (className_throw c e E).
Qed.

Lemma split_mapChars (g : ascii -> ascii) (s : string) :
  (forall ch, Ascii.eqb (g ch) underscore = Ascii.eqb ch underscore) ->
  split underscore (mapChars g s) = map (mapChars g) (split underscore s).
Proof.
  intros Hg. induction s as [|ch s IH]; cbn [mapChars split map]; [reflexivity|].
  rewrite Hg, IH. destruct (Ascii.eqb ch underscore); [reflexivity|].
  pose proof (split_not_nil underscore s) as Hne.
  destruct (split underscore s); [contradiction | reflexivity].
Qed.

Lemma mapChars_mapChars (g h : ascii -> ascii) (s : string) :
  mapChars g (mapChars h s) = mapChars (fun ch => g (h ch)) s.
Proof. induction s as [|ch s IH]; simpl; [reflexivity | now rewrite IH]. Qed.

Lemma mapChars_ext (g h : ascii -> ascii) (s : string) :
  (forall ch, g ch = h ch) -> mapChars g s = mapChars h s.
Proof. intros H. induction s as [|ch s IH]; simpl; [reflexivity | now rewrite H, IH]. Qed.

Lemma mapM_capitalize_mapChars (g : ascii -> ascii) (parts : list string) :
  (forall ch, upperChar (g ch) = upperChar ch) ->
  (forall ch, lowerChar (g ch) = lowerChar ch) ->
  mapM capitalize (map (mapChars g) parts) = mapM capitalize parts.
Proof.
  intros Hu Hl. induction parts as [|part parts IH]; [reflexivity|].
  cbn [map mapM]. rewrite IH. f_equal.
  destruct part as [|ch rest]; [reflexivity|].
  cbn [mapChars capitalize toUpperCase append]. unfold toLowerCase.
  now rewrite Hu, mapChars_mapChars, (mapChars_ext _ lowerChar rest Hl).
Qed.

(** The identifier does not depend on the case of the letters of the name. *)
Theorem upperCamelCase_ignores_case (name1 name2 : string) :
  toLowerCase name1 = toLowerCase name2 ->
  upperCamelCase name1 = upperCamelCase name2.
Proof.
  assert (H : forall name, upperCamelCase (toLowerCase name) = upperCamelCase name).
  { intros name. unfold upperCamelCase, toLowerCase.
    rewrite (split_mapChars _ _ lowerChar_underscore).
    now rewrite (mapM_capitalize_mapChars _ _ upperChar_lowerChar lowerChar_lowerChar). }
  intros Heq. now rewrite <- (H name1), Heq, H.
Qed.

(** ** More on the lookup of relations *)

Lemma find_none_iff {A : Type} (p : A -> bool) (l : list A) :
  find p l = None <-> forall x, In x l -> p x = false.
Proof.
  split; [apply find_none|].
  induction l as [|a l IH]; intros H; cbn [find]; [reflexivity|].
  rewrite (H a (or_introl eq_refl)). apply IH. intros x Hx. apply H. now right.
Qed.

Lemma lookup_In (cs : list (string * Collection)) (key : string) (c : Collection) :
  ownProperty cs key = Some c -> In c (values cs).
Proof.
  induction cs as [|[k c'] cs IH]; cbn [ownProperty values map snd]; [discriminate|].
  destruct (String.eqb k key).
  - intros H. inversion H. now left.
  - intros H. right. now apply IH.
Qed.

(** A relation that is found gives a result or an exception, never the
    answer of the field that is no relation. *)
Lemma fieldToRelationType_found (f : FieldOverview) (c : Collection) (schema : SchemaOverview)
    (relation : Relation) :
  find (isForwardOf f c) (relations schema) = Some relation ->
  fieldToRelationType f c schema <> Ok None.
Proof.
  intros Hfind. unfold fieldToRelationType. rewrite Hfind.
  destruct (classNameAt _ _) as [target|]; cbn [bind]; [|discriminate].
  destruct (if truthy (fkColumn relation) then _ else _) as [keyType|]; cbn [bind];
    [|discriminate].
  destruct (className c) as [own|]; cbn [bind]; [|discriminate].
  destruct (String.eqb target own); discriminate.
Qed.

Lemma aliasToType_found (f : FieldOverview) (c : Collection) (schema : SchemaOverview)
    (relation : Relation) :
  find (isAliasOf f c) (relations schema) = Some relation ->
  aliasToType f c schema <> Ok None.
Proof.
  intros Hfind. unfold aliasToType. rewrite Hfind.
  destruct (rel_meta relation) as [m|]; [|discriminate].
  destruct (classNameAt _ _) as [target|]; cbn [bind]; [|discriminate].
  destruct (className c) as [own|]; cbn [bind]; [|discriminate].
  destruct (String.eqb target own); discriminate.
Qed.

(** A field is no forward relation exactly when no relation of the catalog
    has its collection and its field name. *)
Theorem forward_lookup_misses_exactly (f : FieldOverview) (c : Collection)
    (schema : SchemaOverview) :
  fieldToRelationType f c schema = Ok None
  <-> (forall r, In r (relations schema) ->
         ~ (rel_collection r = collection c /\ rel_field r = field f)).
Proof.
  split.
  - intros H r Hin [Hc Hf].
    destruct (find (isForwardOf f c) (relations schema)) as [relation|] eqn:Hfind.
    + exact (fieldToRelationType_found f c schema relation Hfind H).
    + pose proof (find_none _ _ Hfind r Hin) as Hr. unfold isForwardOf in Hr.
      now rewrite Hc, Hf, !String.eqb_refl in Hr.
  - intros H. unfold fieldToRelationType.
    assert (Hfind : find (isForwardOf f c) (relations schema) = None).
    { apply find_none_iff. intros r Hin. unfold isForwardOf.
      destruct (String.eqb_spec (rel_collection r) (collection c)) as [Hc|]; [|reflexivity].
      destruct (String.eqb_spec (rel_field r) (field f)) as [Hf|]; [|reflexivity].
      exfalso. exact (H r Hin (conj Hc Hf)). }
    now rewrite Hfind.
Qed.

(** An alias field of an entity is no reverse relation exactly when no
    relation of the catalog has that entity as its one side together with a
    non-empty one-side field name, whatever that name is. *)
Theorem alias_lookup_misses_exactly (f : FieldOverview) (c : Collection)
    (schema : SchemaOverview) :
  aliasToType f c schema = Ok None
  <-> (forall r m name, In r (relations schema) -> rel_meta r = Some m ->
         one_collection m = Some (collection c) -> one_field m = Some name ->
         name = EmptyString).
Proof.
  split.
  - intros H r m name Hin Hm Hc Hf.
    destruct (find (isAliasOf f c) (relations schema)) as [relation|] eqn:Hfind.
    + exfalso. exact (aliasToType_found f c schema relation Hfind H).
    + pose proof (find_none _ _ Hfind r Hin) as Hr. unfold isAliasOf in Hr.
      rewrite Hm, Hc, Hf, String.eqb_refl in Hr. cbn [truthy andb] in Hr.
      destruct (String.eqb_spec name EmptyString); [assumption | discriminate].
  - intros H. unfold aliasToType.
    assert (Hfind : find (isAliasOf f c) (relations schema) = None).
    { apply find_none_iff. intros r Hin. unfold isAliasOf.
      destruct (rel_meta r) as [m|] eqn:Hm; [|reflexivity].
      destruct (one_collection m) as [oc|] eqn:Hoc; [|reflexivity].
      destruct (String.eqb_spec oc (collection c)) as [Hc|]; [|reflexivity].
      destruct (one_field m) as [name|] eqn:Hname; [|reflexivity].
      subst oc. rewrite (H r m name Hin Hm Hoc Hname). reflexivity. }
    now rewrite Hfind.
Qed.

(** A relation whose other entity is no property of the catalog object,
    neither its own nor inherited (for a forward relation also the relation
    without related collection, looked up under the key "null"), makes the
    resolution throw: the field is typed [never], with a diagnostic and
    without import. *)
Theorem dangling_relation_is_never (f : FieldOverview) (c : Collection)
    (schema : SchemaOverview) (relation : Relation) :
  (if alias f
   then find (isAliasOf f c) (relations schema) = Some relation
        /\ exists m, rel_meta relation = Some m
                     /\ lookup (collections schema) (many_collection m) = Missing
   else find (isForwardOf f c) (relations schema) = Some relation
        /\ lookup (collections schema) (propertyKey (related_collection relation))
           = Missing) ->
  relationOf f c schema = Throw noSuchCollection
  /\ emittedType f c schema = "never"
  /\ diagnosticsOf c schema f = [missingField c f noSuchCollection]
  /\ importsOf c schema f = [].
Proof.
  intros H.
  assert (Hrel : relationOf f c schema = Throw noSuchCollection).
  { unfold relationOf, aliasToType, fieldToRelationType, classNameAt.
    destruct (alias f).
    - destruct H as [Hfind [m [Hm Hlook]]]. now rewrite Hfind, Hm, Hlook.
    - destruct H as [Hfind Hlook]. now rewrite Hfind, Hlook. }
  assert (Hres : resolved f c schema = Throw noSuchCollection)
    by (unfold resolved, resolveField; now rewrite Hrel).
  split; [exact Hrel|]. split; [|split].
  - rewrite emittedType_resolved. now rewrite Hres.
  - rewrite diagnosticsOf_resolved. now rewrite Hres.
  - exact (importsOf_failed c schema f _ Hres).
Qed.

(** What a relation that resolves returns: the type, which starts with the
    identifier of the related entity, and the import of that identifier
    unless it is the identifier of the owning entity. *)
Lemma relationOf_inv (f : FieldOverview) (c : Collection) (schema : SchemaOverview)
    (relation : list string) :
  relationOf f c schema = Ok (Some relation) ->
  exists related target own suffix,
    relatedEntity f c schema = Some related
    /\ In related (values (collections schema))
    /\ className related = Ok target
    /\ className c = Ok own
    /\ relation = (target ++ suffix)
                  :: (if String.eqb target own then [] else [importLine target]).
Proof.
  unfold relationOf, relatedEntity, aliasToType, fieldToRelationType, classNameAt.
  destruct (alias f).
  - destruct (find (isAliasOf f c) (relations schema)) as [r|]; [|discriminate].
    destruct (rel_meta r) as [m|]; [|discriminate].
    unfold lookup.
    destruct (ownProperty (collections schema) (many_collection m)) as [related|] eqn:Hl;
      [|destruct (includes _ _); discriminate].
    destruct (className related) as [target|] eqn:Ht; cbn [bind]; [|discriminate].
    destruct (className c) as [own|] eqn:Ho; cbn [bind]; [|discriminate].
    intros H. apply lookup_In in Hl.
    destruct (String.eqb target own) eqn:E; inversion H.
    + exists related, target, own, EmptyString. rewrite append_nil_r. now rewrite E.
    + exists related, target, own, "[]". now rewrite E.
  - destruct (find (isForwardOf f c) (relations schema)) as [r|]; [|discriminate].
    unfold lookup.
    destruct (ownProperty (collections schema) (propertyKey (related_collection r)))
      as [related|] eqn:Hl; [|destruct (includes _ _); discriminate].
    destruct (className related) as [target|] eqn:Ht; cbn [bind]; [|discriminate].
    destruct (if truthy (fkColumn r) then _ else _) as [keyType|]; cbn [bind];
      [|discriminate].
    destruct (className c) as [own|] eqn:Ho; cbn [bind]; [|discriminate].
    intros H. apply lookup_In in Hl.
    destruct (String.eqb target own) eqn:E; inversion H;
      exists related, target, own, (" | " ++ keyType); now rewrite E.
Qed.

(** The type written for a field that resolves as a relation starts with
    the identifier of an entity of the catalog, and the array returned for
    it has one or two elements, so its first element is always there. *)
Theorem relation_type_starts_with_related_identifier (f : FieldOverview) (c : Collection)
    (schema : SchemaOverview) (relation : list string) :
  relationOf f c schema = Ok (Some relation) ->
  exists related target suffix,
    In related (values (collections schema))
    /\ className related = Ok target
    /\ resolved f c schema = Ok (target ++ suffix)
    /\ hd_error relation = Some (target ++ suffix)
    /\ 1 <= List.length relation <= 2.
Proof.
  intros H. destruct (relationOf_inv f c schema relation H)
    as (related & target & own & suffix & _ & Hin & Ht & _ & Hshape).
  exists related, target, suffix. split; [exact Hin|]. split; [exact Ht|].
  subst relation. split; [|split; [reflexivity|]].
  - unfold resolved, resolveField. now rewrite H.
  - destruct (String.eqb target own); cbn [List.length]; lia.
Qed.

Lemma append_inj_length (a b x y : string) :
  String.length a = String.length b -> a ++ x = b ++ y -> a = b.
Proof.
  revert b. induction a as [|ch a IH]; intros [|ch' b]; cbn [String.length append];
    try discriminate; [reflexivity|].
  intros Hlen H. inversion H; subst ch'. f_equal. apply IH; [lia | assumption].
Qed.

Lemma append_cancel_l (p x y : string) : p ++ x = p ++ y -> x = y.
Proof.
  induction p as [|ch p IH]; cbn [append]; [trivial|].
  intros H. inversion H. now apply IH.
Qed.

Lemma importLine_inj (a b : string) : importLine a = importLine b -> a = b.
Proof.
  unfold importLine. intros H. apply append_cancel_l in H.
  pose proof (f_equal String.length H) as Hlen.
  rewrite !length_append in Hlen. cbn [String.length] in Hlen.
  apply (append_inj_length a b _ _ ltac:(lia) H).
Qed.

Lemma importsOf_lines (c : Collection) (schema : SchemaOverview) (f : FieldOverview)
    (line : string) :
  In line (importsOf c schema f) ->
  exists related target own,
    In related (values (collections schema))
    /\ className related = Ok target
    /\ className c = Ok own
    /\ target <> own
    /\ line = importLine target.
Proof.
  unfold importsOf. destruct (relationOf f c schema) as [[relation|]|] eqn:Hrel;
    try (intros []).
  destruct (relationOf_inv f c schema relation Hrel)
    as (related & target & own & suffix & _ & Hin & Ht & Ho & Hshape).
  subst relation. cbn [tl]. destruct (String.eqb_spec target own) as [|Hne]; [intros []|].
  intros [Hline | []]. now exists related, target, own.
Qed.

(** Every import of the unit of an entity is the import of the identifier
    of an entity of the catalog, which is not the identifier of the unit: a
    unit never imports itself. *)
Theorem imports_point_to_other_units (c : Collection) (schema : SchemaOverview)
    (own : string) :
  className c = Ok own ->
  let final := fold_left (fieldStep c schema) (fields c) (initialState own) in
  (forall line, In line (imports final) ->
     exists related target,
       In related (values (collections schema))
       /\ className related = Ok target
       /\ target <> own
       /\ line = importLine target)
  /\ ~ In (importLine own) (imports final).
Proof.
  intros Ho final.
  assert (H : forall line, In line (imports final) ->
                exists related target,
                  In related (values (collections schema))
                  /\ className related = Ok target
                  /\ target <> own
                  /\ line = importLine target).
  { intros line Hin. unfold final in Hin. rewrite fieldLoop_eq in Hin.
    cbn [imports initialState] in Hin. rewrite pushImports_firstSeen in Hin.
    cbn [app] in Hin. apply firstSeen_In in Hin. destruct Hin as [Hin _].
    apply in_flat_map in Hin. destruct Hin as [f [_ Hline]].
    destruct (importsOf_lines c schema f line Hline)
      as (related & target & own' & Hrel & Ht & Ho' & Hne & Heq).
    rewrite Ho in Ho'. inversion Ho'; subst own'. now exists related, target. }
  split; [exact H|].
  intros Hin. destruct (H _ Hin) as (related & target & _ & _ & Hne & Heq).
  apply importLine_inj in Heq. now subst.
Qed.

(** ** The unit of an entity as a whole *)

Lemma diagnostics_count (c : Collection) (schema : SchemaOverview) (fs : list FieldOverview) :
  List.length (flat_map (diagnosticsOf c schema) fs)
  = List.length (filter (fun f => failed f c schema) fs).
Proof.
  induction fs as [|f fs IH]; [reflexivity|].
  cbn [flat_map filter]. rewrite length_app, IH, diagnosticsOf_resolved. unfold failed.
  destruct (resolved f c schema); reflexivity.
Qed.

Lemma flat_map_nil {A B : Type} (g : A -> list B) (l : list A) :
  (forall a, In a l -> g a = []) -> flat_map g l = [].
Proof.
  induction l as [|a l IH]; intros H; [reflexivity|]. cbn [flat_map].
  rewrite (H a (or_introl eq_refl)), IH; [reflexivity|].
  intros a' Ha'. apply H. now right.
Qed.

(** The unit of an entity is its import lines, an empty line, the header
    with its identifier, one member per field in the order of the fields and
    the closing brace; the console receives one diagnostic per field whose
    resolution throws, in the order of the fields. Without import the unit
    starts with the empty line. *)
Theorem model_has_one_member_per_field (c : Collection) (schema : SchemaOverview)
    (name : string) :
  className c = Ok name ->
  generateModel c schema
  = (flat_map (diagnosticsOf c schema) (fields c),
     Ok (join EmptyString
           (map (fun line => line ++ nl)
              (firstSeen [] (flat_map (importsOf c schema) (fields c))))
         ++ nl ++ "export interface " ++ name ++ " {" ++ nl
         ++ join EmptyString (map (fun f => fieldSource f (emittedType f c schema)) (fields c))
         ++ "}" ++ nl))
  /\ List.length (fst (generateModel c schema))
     = List.length (filter (fun f => failed f c schema) (fields c))
  /\ ((forall f, In f (fields c) -> importsOf c schema f = []) ->
      snd (generateModel c schema)
      = Ok (nl ++ "export interface " ++ name ++ " {" ++ nl
            ++ join EmptyString
                 (map (fun f => fieldSource f (emittedType f c schema)) (fields c))
            ++ "}" ++ nl)).
Proof.
  intros Hname.
  assert (Heq : generateModel c schema
                = (flat_map (diagnosticsOf c schema) (fields c),
                   Ok (join EmptyString
                         (map (fun line => line ++ nl)
                            (firstSeen [] (flat_map (importsOf c schema) (fields c))))
                       ++ nl ++ "export interface " ++ name ++ " {" ++ nl
                       ++ join EmptyString
                            (map (fun f => fieldSource f (emittedType f c schema)) (fields c))
                       ++ "}" ++ nl))).
  { rewrite (generateModel_eq c schema name Hname), fieldLoop_eq. unfold renderModel.
    cbn [imports source console initialState app]. rewrite pushImports_firstSeen.
    cbn [app]. now rewrite !append_assoc. }
  split; [exact Heq|]. split.
  - rewrite Heq. cbn [fst]. apply diagnostics_count.
  - intros Hnone. rewrite Heq. cbn [snd].
    now rewrite (flat_map_nil _ _ Hnone).
Qed.

(** ** The run as a whole *)

Lemma generateModel_text (c : Collection) (schema : SchemaOverview) (name : string) :
  className c = Ok name ->
  generateModel c schema = (modelDiagnostics schema c, Ok (modelText c schema name)).
Proof.
  intros Hname. rewrite (generateModel_eq c schema name Hname).
  unfold modelText, modelDiagnostics. rewrite fieldLoop_eq. reflexivity.
Qed.

Lemma writeModels_all (schema : SchemaOverview) (cs : list Collection) (names : list string)
    (files : list (string * string)) (log : list Diagnostic) :
  mapM className cs = Ok names ->
  writeModels cs schema files log
  = {| written := (files ++ map (modelFile schema) (combine cs names))%list;
       printed := (log ++ flat_map (modelDiagnostics schema) cs)%list;
       outcome := Ok tt |}.
Proof.
  revert names files log. induction cs as [|c cs IH]; intros names files log; cbn [mapM].
  - intros _. cbn [writeModels combine map flat_map]. now rewrite !app_nil_r.
  - destruct (className c) as [name|] eqn:Hname; cbn [bind]; [|discriminate].
    destruct (mapM className cs) as [names'|] eqn:Hnames; cbn [bind]; [|discriminate].
    intros H. inversion H; subst names. cbn [writeModels].
    rewrite Hname, (generateModel_text c schema name Hname), (IH names' _ _ eq_refl).
    cbn [combine map flat_map]. unfold modelFile at 2. cbn [fst snd].
    now rewrite <- !app_assoc.
Qed.

Lemma writeModels_stop (schema : SchemaOverview) (before after : list Collection)
    (c : Collection) (names : list string) (e : exn)
    (files : list (string * string)) (log : list Diagnostic) :
  mapM className before = Ok names ->
  className c = Throw e ->
  writeModels (before ++ c :: after) schema files log
  = {| written := (files ++ map (modelFile schema) (combine before names))%list;
       printed := (log ++ flat_map (modelDiagnostics schema) before)%list;
       outcome := Throw e |}.
Proof.
  revert names files log. induction before as [|c' before IH]; intros names files log;
    cbn [mapM].
  - intros _ Hc. cbn [app writeModels combine map flat_map]. now rewrite Hc, !app_nil_r.
  - destruct (className c') as [name|] eqn:Hname; cbn [bind]; [|discriminate].
    destruct (mapM className before) as [names'|] eqn:Hnames; cbn [bind]; [|discriminate].
    intros H Hc. inversion H; subst names. rewrite <- app_comm_cons. cbn [writeModels].
    rewrite Hname, (generateModel_text c' schema name Hname), (IH names' _ _ eq_refl Hc).
    cbn [combine map flat_map]. unfold modelFile at 2. cbn [fst snd].
    now rewrite <- !app_assoc.
Qed.

(** A traversal that throws does so at a first element, after elements
    that give results. *)
Lemma mapM_throw_split {A B : Type} (g : A -> result B) (l : list A) (e : exn) :
  mapM g l = Throw e ->
  exists before a after bs,
    l = (before ++ a :: after)%list /\ mapM g before = Ok bs /\ g a = Throw e.
Proof.
  induction l as [|a l IH]; cbn [mapM]; [discriminate|].
  destruct (g a) as [b|e'] eqn:Ha; cbn [bind].
  - destruct (mapM g l) as [bs|e'] eqn:Hl; cbn [bind]; [discriminate|].
    intros H. inversion H; subst e'.
    destruct (IH eq_refl) as (before & a' & after & bs & Heq & Hb & Ha').
    exists (a :: before), a', after, (b :: bs). subst l. cbn [mapM].
    rewrite Ha, Hb. now repeat split.
  - intros H. inversion H; subst e'. now exists [], a, l, [].
Qed.

Lemma snapshot_all (schema : SchemaOverview) (names : list string) :
  mapM className (values (collections schema)) = Ok names ->
  exists indexText,
    generateIndex (collections schema) = Ok indexText
    /\ snapshot schema
       = {| written := (map (modelFile schema)
                          (combine (values (collections schema)) names)
                        ++ [("index.d.ts", indexText)])%list;
            printed := flat_map (modelDiagnostics schema) (values (collections schema));
            outcome := Ok tt |}.
Proof.
  intros H.
  assert (Hindex : exists indexText, generateIndex (collections schema) = Ok indexText).
  { unfold generateIndex. rewrite indexImports_eq, H. cbn [bind].
    rewrite indexMembers_eq, H. cbn [bind]. now eexists. }
  destruct Hindex as [indexText Hindex]. exists indexText. split; [exact Hindex|].
  unfold snapshot. rewrite (writeModels_all schema _ names [] [] H).
  cbn [outcome written printed app]. now rewrite Hindex.
Qed.

Lemma snapshot_stop (schema : SchemaOverview) (before after : list Collection)
    (c : Collection) (names : list string) (e : exn) :
  values (collections schema) = (before ++ c :: after)%list ->
  mapM className before = Ok names ->
  className c = Throw e ->
  snapshot schema
  = {| written := map (modelFile schema) (combine before names);
       printed := flat_map (modelDiagnostics schema) before;
       outcome := Throw e |}.
Proof.
  intros Heq Hb Hc. unfold snapshot.
  rewrite Heq, (writeModels_stop schema _ _ _ names e [] [] Hb Hc). reflexivity.
Qed.

(** The run reaches its end exactly when the identifier of every entity is
    derived; it has then written the unit of every entity in catalog order,
    each to the file of its identifier, then the index, and printed the
    diagnostics of the entities in that order. *)
Theorem snapshot_succeeds_iff_identifiers_derive (schema : SchemaOverview) :
  (outcome (snapshot schema) = Ok tt
   <-> exists names, mapM className (values (collections schema)) = Ok names)
  /\ (forall names,
        mapM className (values (collections schema)) = Ok names ->
        exists indexText,
          generateIndex (collections schema) = Ok indexText
          /\ snapshot schema
             = {| written := (map (modelFile schema)
                                (combine (values (collections schema)) names)
                              ++ [("index.d.ts", indexText)])%list;
                  printed := flat_map (modelDiagnostics schema) (values (collections schema));
                  outcome := Ok tt |}).
Proof.
  split; [|apply snapshot_all]. split.
  - intros Hout.
    destruct (mapM className (values (collections schema))) as [names|e] eqn:H;
      [now exists names|].
    exfalso. destruct (mapM_throw_split _ _ _ H) as (before & c & after & bs & Heq & Hb & Hc).
    rewrite (snapshot_stop schema _ _ _ _ _ Heq Hb Hc) in Hout.
    cbn [outcome] in Hout. discriminate.
  - intros [names H]. destruct (snapshot_all schema names H) as [indexText [_ Hs]].
    now rewrite Hs.
Qed.

(** The run stops at the first entity whose identifier cannot be derived:
    the units of the entities before it stay written, nothing is written
    for it nor for the entities after it, and no index is written. *)
Theorem snapshot_stops_at_first_underivable_entity (schema : SchemaOverview)
    (before after : list Collection) (c : Collection) (names : list string) (e : exn) :
  values (collections schema) = (before ++ c :: after)%list ->
  mapM className before = Ok names ->
  className c = Throw e ->
  snapshot schema
  = {| written := map (modelFile schema) (combine before names);
       printed := flat_map (modelDiagnostics schema) before;
       outcome := Throw e |}
  /\ List.length (written (snapshot schema)) = List.length before.
Proof.
  intros Heq Hb Hc. pose proof (snapshot_stop schema _ _ _ _ _ Heq Hb Hc) as Hs.
  split; [exact Hs|]. rewrite Hs. cbn [written].
  rewrite length_map, length_combine, (mapM_length _ _ _ Hb). lia.
Qed.

(** ** More on the scalar mapper *)

Lemma oneOf_In (t : string) (cases : list string) : oneOf t cases = true <-> In t cases.
Proof.
  unfold oneOf. rewrite existsb_exists. split.
  - intros [x [Hx Heq]]. apply String.eqb_eq in Heq. now subst.
  - intros H. exists t. split; [assumption | apply String.eqb_refl].
Qed.

Lemma fieldTypeToJsType_cases (f : FieldOverview) (c : Collection) :
  (In (type f) supportedTypes /\ exists t, In t scalarTypes /\ fieldTypeToJsType f c = Ok t)
  \/ (~ In (type f) supportedTypes /\ fieldTypeToJsType f c = Throw (Error "Unknown type")).
Proof.
  unfold fieldTypeToJsType, supportedTypes, scalarTypes.
  repeat match goal with
         | |- context [if oneOf ?t ?l then _ else _] =>
             let E := fresh "E" in
             destruct (oneOf t l) eqn:E;
             [apply oneOf_In in E; cbn [In] in E; left; split;
              [cbn [In]; tauto | eexists; split; [|reflexivity]; cbn [In]; tauto]|]
         end.
  right. split; [|reflexivity]. cbn [In]. intros H.
  repeat match goal with
         | E : oneOf _ _ = false |- _ =>
             apply not_true_iff_false in E; rewrite oneOf_In in E; cbn [In] in E
         end.
  tauto.
Qed.

Lemma widen_not_never (f : FieldOverview) (t : string) :
  In t scalarTypes -> widen f t <> "never".
Proof.
  unfold widen, scalarTypes. cbn [In].
  intros [<- | [<- | [<- | [<- | [<- | []]]]]]; destruct (nullable f); discriminate.
Qed.

(** A field that is no relation and has no choices is typed [never] exactly
    when its type is none of the supported types; the exception is then the
    unknown-type error, and otherwise the type written is one of the five
    scalar types, widened when the field is nullable. *)
Theorem plain_field_is_never_exactly_when_unsupported (f : FieldOverview) (c : Collection)
    (schema : SchemaOverview) (rows : list FieldItem) :
  relationOf f c schema = Ok None ->
  readByQuery (collection c) (field f) = Ok rows ->
  choicesOf rows = None \/ choicesOf rows = Some [] ->
  (emittedType f c schema = "never" <-> ~ In (type f) supportedTypes)
  /\ (In (type f) supportedTypes ->
      exists t, In t scalarTypes /\ emittedType f c schema = widen f t
                /\ diagnosticsOf c schema f = [])
  /\ (~ In (type f) supportedTypes ->
      diagnosticsOf c schema f = [missingField c f (Error "Unknown type")]).
Proof.
  intros Hrel Hrows Hchoices.
  assert (Hres : resolved f c schema = fieldTypeToJsType f c).
  { unfold resolved, resolveField. rewrite Hrel, Hrows.
    destruct Hchoices as [H | H]; rewrite H; now destruct (fieldTypeToJsType f c). }
  rewrite emittedType_resolved, diagnosticsOf_resolved, Hres.
  destruct (fieldTypeToJsType_cases f c) as [[Hin [t [Ht Heq]]] | [Hout Heq]]; rewrite Heq.
  - split; [|split].
    + split; [intros H; now apply widen_not_never in H | tauto].
    + intros _. now exists t.
    + tauto.
  - split; [|split].
    + tauto.
    + tauto.
    + reflexivity.
Qed.

(** ** More on the literals of the choices *)

Lemma escapeQuotes_length (s : string) :
  String.length (escapeQuotes s) = String.length s + countChar quote s.
Proof.
  induction s as [|ch s IH]; [reflexivity|]. cbn [escapeQuotes countChar String.length].
  destruct (Ascii.eqb ch quote); cbn [String.length]; rewrite IH; lia.
Qed.

Lemma escapeQuotes_plain (s : string) : countChar quote s = 0 -> escapeQuotes s = s.
Proof.
  induction s as [|ch s IH]; [reflexivity|]. cbn [escapeQuotes countChar].
  destruct (Ascii.eqb ch quote); [discriminate|]. intros H. now rewrite IH.
Qed.






(** The literal of a choice whose value is a string is two characters
    longer than the value plus one character per single quote of the value,
    and a value without single quote stands in it as it is. *)
Theorem literal_of_a_value (s : string) :
  literal {| value := Text s |} = Ok (quoted s)
  /\ String.length (quoted s) = String.length s + countChar quote s + 2
  /\ (countChar quote s = 0 -> quoted s = String quote (s ++ String quote EmptyString)).
Proof.
  split; [reflexivity|]. unfold quoted. cbn [append String.length].
  rewrite length_append, escapeQuotes_length.
  cbn [String.length]. split; [lia|]. intros H. now rewrite (escapeQuotes_plain _ H).
Qed.

(** ** More on the index and the files *)

(** The index cannot be generated exactly when the identifier of an entity
    cannot be derived; the exception is that of the missing first character,
    and the catalog has an entity whose singularized name has an empty
    part. *)
Theorem index_throws_exactly_when_an_identifier_fails (cs : list (string * Collection))
    (e : exn) :
  (generateIndex cs = Throw e <-> mapM className (values cs) = Throw e)
  /\ (generateIndex cs = Throw e ->
      e = noFirstCharacter
      /\ exists c, In c (values cs) /\ emptySegment (singular (collection c))).
Proof.
  assert (Hiff : generateIndex cs = Throw e <-> mapM className (values cs) = Throw e).
  { split; [|apply generateIndex_throw]. unfold generateIndex.
    rewrite indexImports_eq. destruct (mapM className (values cs)) as [names|e'] eqn:H;
      cbn [bind]; [|intros Hthrow; now injection Hthrow as ->].
    rewrite indexMembers_eq, H. cbn [bind]. discriminate. }
  split; [exact Hiff|]. intros H. apply Hiff in H.
  destruct (mapM_throw_split _ _ _ H) as (before & c & after & bs & Heq & _ & Hc).
  pose proof (className_throw c e Hc) as He. subst e. split; [reflexivity|].
  exists c. split; [rewrite Heq; apply in_elt|].
  apply split_emptySegment, upperCamelCase_throw_iff. exact Hc.
Qed.

Lemma mapM_nth_ok {A B : Type} (g : A -> result B) (l : list A) (bs : list B) (i : nat)
    (a : A) :
  mapM g l = Ok bs -> nth_error l i = Some a ->
  exists b, nth_error bs i = Some b /\ g a = Ok b.
Proof.
  revert bs i. induction l as [|a0 l IH]; intros bs i; cbn [mapM].
  - intros _ H. now destruct i.
  - destruct (g a0) as [b0|] eqn:E0; cbn [bind]; [|discriminate].
    destruct (mapM g l) as [bs'|]; cbn [bind]; [|discriminate].
    intros H. injection H as <-. destruct i as [|i]; cbn [nth_error].
    + intros Ha. injection Ha as <-. now exists b0.
    + apply (IH bs' i eq_refl).
Qed.

(** The file of a unit is named after the identifier alone: in a run that
    reaches its end, two entities with the same identifier are both written
    to the file of that identifier, the later call after the earlier. *)
Theorem colliding_identifiers_share_a_file (schema : SchemaOverview) (i j : nat)
    (c1 c2 : Collection) (name : string) :
  outcome (snapshot schema) = Ok tt ->
  nth_error (values (collections schema)) i = Some c1 ->
  nth_error (values (collections schema)) j = Some c2 ->
  className c1 = Ok name ->
  className c2 = Ok name ->
  nth_error (written (snapshot schema)) i = Some (name ++ ".d.ts", modelText c1 schema name)
  /\ nth_error (written (snapshot schema)) j = Some (name ++ ".d.ts", modelText c2 schema name).
Proof.
  intros Hout Hi Hj H1 H2.
  destruct (mapM className (values (collections schema))) as [names|e] eqn:H.
  - destruct (snapshot_all schema names H) as [indexText [_ Hs]]. rewrite Hs.
    cbn [written].
    assert (Hw : forall k c, nth_error (values (collections schema)) k = Some c ->
                   className c = Ok name ->
                   nth_error (map (modelFile schema)
                                (combine (values (collections schema)) names)
                              ++ [("index.d.ts", indexText)]) k
                   = Some ((name ++ ".d.ts")%string, modelText c schema name)).
    { intros k c Hk Hc. destruct (mapM_nth_ok _ _ _ _ _ H Hk) as [name' [Hn Hc']].
      rewrite Hc in Hc'. injection Hc' as <-.
      rewrite nth_error_app1.
      - rewrite nth_error_map, (nth_error_combine _ _ _ _ _ Hk Hn). reflexivity.
      - rewrite length_map, length_combine, (mapM_length _ _ _ H), Nat.min_id.
        apply nth_error_Some. now rewrite Hk. }
    split; [exact (Hw i c1 Hi H1) | exact (Hw j c2 Hj H2)].
  - exfalso. destruct (mapM_throw_split _ _ _ H) as (before & c & after & bs & Heq & Hb & Hc).
    rewrite (snapshot_stop schema _ _ _ _ _ Heq Hb Hc) in Hout. discriminate.
Qed.

(** ** When a forward relation fails *)

(** For a field matched by a forward relation, [fieldToRelationType] throws
    exactly when the identifier of the related entity cannot be had (the
    entity is no key of the catalog or its name has an empty part), or the
    relation has no foreign-key column name and the type of the field is
    none of the supported types, or the identifier of the owning entity
    cannot be derived. *)
Theorem forward_relation_fails_exactly_when (f : FieldOverview) (c : Collection)
    (schema : SchemaOverview) (relation : Relation) :
  find (isForwardOf f c) (relations schema) = Some relation ->
  ((exists e, fieldToRelationType f c schema = Throw e)
   <-> ((exists e, classNameAt (collections schema)
                     (propertyKey (related_collection relation)) = Throw e)
        \/ (truthy (fkColumn relation) = false /\ ~ In (type f) supportedTypes)
        \/ (exists e, className c = Throw e))).
Proof.
  intros Hfind. unfold fieldToRelationType. rewrite Hfind.
  destruct (classNameAt (collections schema) (propertyKey (related_collection relation)))
    as [target|e1]; cbn [bind].
  2:{ split; [intros _; left; now exists e1 | intros _; now exists e1]. }
  destruct (className c) as [own|e3] eqn:Ho.
  - destruct (truthy (fkColumn relation)); cbn [bind].
    + split.
      * intros [e H]. destruct (String.eqb target own); discriminate.
      * intros [[e H] | [[H _] | [e H]]]; discriminate.
    + destruct (fieldTypeToJsType_cases f c) as [[Hin [t [_ Heq]]] | [Hout Heq]];
        rewrite Heq; cbn [bind].
      * split.
        -- intros [e H]. destruct (String.eqb target own); discriminate.
        -- intros [[e H] | [[_ H] | [e H]]]; [discriminate | contradiction | discriminate].
      * split; [intros _; right; left; now split | intros _; now eexists].
  - split; [intros _; right; right; now exists e3|]. intros _.
    destruct (if truthy (fkColumn relation) then _ else _) as [keyType|e2]; cbn [bind];
      now eexists.
Qed.

End Generator.

(** ** The identifier deriver on the examples of the specification *)

(** C9, as the code has it: the identifier derived for an entity is
    [upperCamelCase] of the singular form of its collection name and of
    nothing else of the entity or of the catalog; where the singularizer
    gives "article" for "articles", "user_account" for "user_accounts" and
    "news" for "news", the identifiers are "Article", "UserAccount" and
    "News". *)
Theorem className_of_name_alone (singular : string -> string) :
  (forall name fields1 fields2,
      className singular {| collection := name; fields := fields1 |}
      = className singular {| collection := name; fields := fields2 |})
  /\ (forall c, className singular c = upperCamelCase (singular (collection c)))
  /\ (singular "articles" = "article" ->
      forall fs, className singular {| collection := "articles"; fields := fs |}
                 = Ok "Article")
  /\ (singular "user_accounts" = "user_account" ->
      forall fs, className singular {| collection := "user_accounts"; fields := fs |}
                 = Ok "UserAccount")
  /\ (singular "news" = "news" ->
      forall fs, className singular {| collection := "news"; fields := fs |}
                 = Ok "News").
Proof.
  split; [reflexivity|]. split; [reflexivity|].
  split; [|split]; intros H fs; unfold className; cbn [collection]; now rewrite H.
Qed.

(** ** Reverse relations on the sample catalog *)

(** C1 (the code departs from it): [aliasToType] never reads the field; on
    the sample catalog no relation has the one-side metadata
    (users, reviews), yet the alias field [reviews] of [users] is resolved
    with the relation of (users, articles) and typed as an array of
    articles. *)
Theorem alias_lookup_ignores_the_field :
  find (oneSideMatches Sample.reviews Sample.users) (relations Sample.blog) = None
  /\ find (isAliasOf Sample.reviews Sample.users) (relations Sample.blog)
     = Some Sample.articles_author
  /\ aliasToType Sample.singularOf Sample.reviews Sample.users Sample.blog
     = Ok (Some ["Article[]"; importLine "Article"])
  /\ (forall singular f1 f2 c schema,
        aliasToType singular f1 c schema = aliasToType singular f2 c schema).
Proof. repeat split. Qed.

(** C2 (the code departs from it): the alias field [children] of [folders]
    is a reverse relation whose many side is [folders] itself; the type
    expression returned for it is the identifier alone, without the array
    brackets, and so is the type written in the declaration. *)
Theorem self_referencing_alias_is_no_array :
  find (isAliasOf Sample.children Sample.folders) (relations Sample.blog)
  = Some Sample.folders_parent
  /\ aliasToType Sample.singularOf Sample.children Sample.folders Sample.blog
     = Ok (Some ["Folder"])
  /\ emittedType Sample.singularOf Sample.fieldRows Sample.children Sample.folders Sample.blog
     = "Folder".
Proof. repeat split. Qed.

(** ** The statements on the sample catalog *)

(** The field [shape] of [articles] has the type [geometry]: its
    resolution throws and the declaration of [articles] goes on. *)
Lemma failed_field_is_never_sample :
  exists start rest,
    snd (generateModel Sample.singularOf Sample.fieldRows Sample.articles Sample.blog)
    = Ok (start
          ++ (nl ++ "  /**" ++ nl
              ++ "   * No description." ++ nl
              ++ "   *" ++ nl
              ++ "   * Type in directus: geometry" ++ nl
              ++ "   * Type in database: geometry" ++ nl
              ++ "   */" ++ nl
              ++ "   shape: never;" ++ nl)
          ++ rest).
Proof.
  apply (failed_field_is_never Sample.singularOf Sample.fieldRows Sample.articles Sample.blog
           [Sample.column "id" "integer" false; Sample.column "title" "string" true;
            Sample.author; Sample.editor]
           [Sample.status; Sample.rating] Sample.shape (Error "Unknown type") "Article"
           eq_refl eq_refl eq_refl).
Defined.

(** The field [author] of [articles] is a forward relation to [users] with
    the foreign-key column [id]. *)
Lemma forward_relation_type_sample :
  resolved Sample.singularOf Sample.fieldRows Sample.author Sample.articles Sample.blog
  = Ok ("User | User[" ++ dquote ++ "id" ++ dquote ++ "]").
Proof.
  destruct (forward_relation_type Sample.singularOf Sample.fieldRows Sample.articles Sample.blog
              Sample.author Sample.articles_author "User" "Article"
              eq_refl eq_refl eq_refl eq_refl) as [Hcolumn _].
  apply (Hcolumn "id"); [reflexivity | discriminate].
Defined.

(** The field [editor] of [articles] is nullable and a forward relation
    without a foreign-key column. *)
Lemma nullable_widens_resolved_type_sample :
  nullable Sample.editor = true
  /\ emittedType Sample.singularOf Sample.fieldRows Sample.editor Sample.articles Sample.blog
     = "User | string | null".
Proof.
  split; [reflexivity|].
  destruct (nullable_widens_resolved_type Sample.singularOf Sample.fieldRows Sample.articles
              Sample.blog Sample.editor eq_refl) as [Hwiden _].
  apply (Hwiden "User | string"). reflexivity.
Defined.


(** The index of the sample catalog. *)
Lemma index_lines_in_catalog_order_sample :
  generateIndex Sample.singularOf (collections Sample.blog)
  = Ok (importLine "Article" ++ nl ++ importLine "User" ++ nl ++ importLine "Folder" ++ nl
        ++ nl ++ "export interface Collections {" ++ nl
        ++ "  articles: Article;" ++ nl
        ++ "  users: User;" ++ nl
        ++ "  folders: Folder;" ++ nl
        ++ "}" ++ nl).
Proof.
  apply (index_lines_in_catalog_order Sample.singularOf (collections Sample.blog)
           ["Article"; "User"; "Folder"] eq_refl).
Defined.


(** The entity [_drafts] stops the export of the catalog that holds it. *)
Lemma empty_segment_aborts_run_sample :
  outcome (snapshot Sample.singularOf Sample.fieldRows Sample.blogWithDrafts)
  = Throw noFirstCharacter.
Proof.
  assert (Hin : In Sample.drafts (values (collections Sample.blogWithDrafts)))
    by (simpl; right; left; reflexivity).
  assert (Hseg : emptySegment (Sample.singularOf (collection Sample.drafts)))
    by (right; left; exists "draft"; reflexivity).
  apply (empty_segment_aborts_run Sample.singularOf Sample.fieldRows Sample.blogWithDrafts
           Sample.drafts Hin Hseg).
Defined.

(** ** Where the specification and the code part *)

(** Against C5 as the specification words it: the field [shape] of
    [articles] is nullable and its resolution throws; the type written for
    it is [never], not [never] widened with the null marker. *)
Lemma nullable_failed_field_not_widened :
  nullable Sample.shape = true
  /\ resolved Sample.singularOf Sample.fieldRows Sample.shape Sample.articles Sample.blog
     = Throw (Error "Unknown type")
  /\ emittedType Sample.singularOf Sample.fieldRows Sample.shape Sample.articles Sample.blog
     = "never"
  /\ emittedType Sample.singularOf Sample.fieldRows Sample.shape Sample.articles Sample.blog
     <> "never | null".
Proof. repeat split. discriminate. Qed.


(** ** The metadata service *)

(** The metadata service is asked for the fields that are no relation
    only: for a field that is a relation, or whose relation throws, the type
    written, the diagnostics and the imports are the same with any two
    services; for a field that is no relation, a rejected query types the
    field [never] with the rejection as diagnostic, whatever its type. *)
Theorem metadata_is_for_plain_fields_only (singular : string -> string)
    (service1 service2 : string -> string -> result (list FieldItem))
    (f : FieldOverview) (c : Collection) (schema : SchemaOverview) :
  (relationOf singular f c schema <> Ok None ->
   emittedType singular service1 f c schema = emittedType singular service2 f c schema
   /\ diagnosticsOf singular service1 c schema f = diagnosticsOf singular service2 c schema f)
  /\ (forall e,
        relationOf singular f c schema = Ok None ->
        service1 (collection c) (field f) = Throw e ->
        emittedType singular service1 f c schema = "never"
        /\ diagnosticsOf singular service1 c schema f = [missingField c f e]).
Proof.
  split.
  - intros Hrel.
    assert (H : resolved singular service1 f c schema = resolved singular service2 f c schema).
    { unfold resolved, resolveField.
      destruct (relationOf singular f c schema) as [[relation|]|e];
        [reflexivity | contradiction | reflexivity]. }
    now rewrite !emittedType_resolved, !diagnosticsOf_resolved, H.
  - intros e Hrel Hquery.
    assert (H : resolved singular service1 f c schema = Throw e)
      by (unfold resolved, resolveField; now rewrite Hrel, Hquery).
    rewrite emittedType_resolved, diagnosticsOf_resolved. now rewrite H.
Qed.

(** ** Further statements on the sample catalogs *)

Lemma className_throws_exactly_on_empty_segment_sample :
  className Sample.singularOf Sample.drafts = Throw noFirstCharacter.
Proof.
  destruct (className_throws_exactly_on_empty_segment Sample.singularOf Sample.drafts)
    as [[_ Hthrow] _].
  apply Hthrow. right. left. exists "draft". reflexivity.
Defined.

Lemma identifier_drops_the_underscores_sample :
  countChar underscore "UserAccount" = 0
  /\ String.length "UserAccount" + countChar underscore "user_account"
     = String.length "user_account".
Proof.
  apply (identifier_drops_the_underscores "user_account" "UserAccount" eq_refl eq_refl).
Defined.

Lemma upperCamelCase_ignores_case_sample :
  upperCamelCase "User_Account" = upperCamelCase "user_ACCOUNT".
Proof. apply (upperCamelCase_ignores_case "User_Account" "user_ACCOUNT" eq_refl). Defined.

(** No relation of the blog has the collection and the field of the title
    of an article. *)
Lemma forward_lookup_misses_exactly_sample :
  fieldToRelationType Sample.singularOf (Sample.column "title" "string" true)
    Sample.articles Sample.blog = Ok None.
Proof.
  destruct (forward_lookup_misses_exactly Sample.singularOf
              (Sample.column "title" "string" true) Sample.articles Sample.blog)
    as [_ Hmiss].
  apply Hmiss. intros r [<- | [<- | [<- | []]]] [Hc Hf]; discriminate.
Defined.

(** No relation of the blog has [articles] as its one side. *)
Lemma alias_lookup_misses_exactly_sample :
  aliasToType Sample.singularOf (Sample.virtual "tags") Sample.articles Sample.blog = Ok None.
Proof.
  destruct (alias_lookup_misses_exactly Sample.singularOf (Sample.virtual "tags")
              Sample.articles Sample.blog) as [_ Hmiss].
  apply Hmiss. intros r m name [<- | [<- | [<- | []]]] Hm Hc Hf;
    injection Hm as <-; discriminate.
Defined.

(** The item of a block is related to any collection: it is typed [never]. *)
Lemma dangling_relation_is_never_sample :
  emittedType Sample.singularOf Sample.fieldRows Cases.item Cases.blocks Cases.site = "never".
Proof.
  apply (dangling_relation_is_never Sample.singularOf Sample.fieldRows Cases.item Cases.blocks
           Cases.site Cases.blocks_item (conj eq_refl eq_refl)).
Defined.

Lemma relation_type_starts_with_related_identifier_sample :
  exists related target suffix,
    In related (values (collections Sample.blog))
    /\ className Sample.singularOf related = Ok target
    /\ resolved Sample.singularOf Sample.fieldRows Sample.author Sample.articles Sample.blog
       = Ok (target ++ suffix)
    /\ hd_error ["User | User[" ++ dquote ++ "id" ++ dquote ++ "]"; importLine "User"]
       = Some (target ++ suffix)
    /\ 1 <= 2 <= 2.
Proof.
  apply (relation_type_starts_with_related_identifier Sample.singularOf Sample.fieldRows
           Sample.author Sample.articles Sample.blog _ eq_refl).
Defined.

Lemma imports_point_to_other_units_sample :
  ~ In (importLine "Article")
      (imports (fold_left (fieldStep Sample.singularOf Sample.fieldRows Sample.articles Sample.blog)
                  (fields Sample.articles) (initialState "Article"))).
Proof.
  apply (imports_point_to_other_units Sample.singularOf Sample.fieldRows Sample.articles
           Sample.blog "Article" eq_refl).
Defined.

Lemma model_has_one_member_per_field_sample :
  List.length (fst (generateModel Sample.singularOf Sample.fieldRows Sample.articles Sample.blog))
  = List.length (filter (fun f => failed Sample.singularOf Sample.fieldRows f Sample.articles
                                    Sample.blog)
                   (fields Sample.articles)).
Proof.
  apply (model_has_one_member_per_field Sample.singularOf Sample.fieldRows Sample.articles
           Sample.blog "Article" eq_refl).
Defined.

Lemma snapshot_succeeds_iff_identifiers_derive_sample :
  outcome (snapshot Sample.singularOf Sample.fieldRows Sample.blog) = Ok tt.
Proof.
  destruct (snapshot_succeeds_iff_identifiers_derive Sample.singularOf Sample.fieldRows
              Sample.blog) as [[_ Hend] _].
  apply Hend. exists ["Article"; "User"; "Folder"]. reflexivity.
Defined.

Lemma snapshot_stops_at_first_underivable_entity_sample :
  List.length (written (snapshot Sample.singularOf Sample.fieldRows Sample.blogWithDrafts)) = 1.
Proof.
  apply (snapshot_stops_at_first_underivable_entity Sample.singularOf Sample.fieldRows
           Sample.blogWithDrafts [Sample.articles] [Sample.users] Sample.drafts
           ["Article"] noFirstCharacter eq_refl eq_refl eq_refl).
Defined.

Lemma plain_field_is_never_exactly_when_unsupported_sample :
  emittedType Sample.singularOf Sample.fieldRows Sample.shape Sample.articles Sample.blog
  = "never".
Proof.
  destruct (plain_field_is_never_exactly_when_unsupported Sample.singularOf Sample.fieldRows
              Sample.shape Sample.articles Sample.blog [] eq_refl eq_refl
              (or_introl eq_refl)) as [[_ Hnever] _].
  apply Hnever. cbn. intros H.
  repeat (destruct H as [H | H]; [discriminate|]). exact H.
Defined.


Lemma literal_of_a_value_sample :
  quoted "a" = "'a'".
Proof.
  destruct (literal_of_a_value "a") as (_ & _ & Hplain).
  apply Hplain. reflexivity.
Defined.

Lemma index_throws_exactly_when_an_identifier_fails_sample :
  generateIndex Sample.singularOf (collections Sample.blogWithDrafts) = Throw noFirstCharacter.
Proof.
  destruct (index_throws_exactly_when_an_identifier_fails Sample.singularOf
              (collections Sample.blogWithDrafts) noFirstCharacter) as [[_ Hthrow] _].
  apply Hthrow. reflexivity.
Defined.

(** The units of [members] and of [Members] both go to [Member.d.ts]. *)
Lemma colliding_identifiers_share_a_file_sample :
  option_map fst (nth_error (written (snapshot Sample.singularOf Sample.fieldRows Cases.site)) 1)
  = Some "Member.d.ts"
  /\ option_map fst (nth_error (written (snapshot Sample.singularOf Sample.fieldRows Cases.site)) 2)
     = Some "Member.d.ts".
Proof.
  destruct (colliding_identifiers_share_a_file Sample.singularOf Sample.fieldRows Cases.site
              1 2 Cases.members Cases.Members "Member"
              eq_refl eq_refl eq_refl eq_refl eq_refl) as [H1 H2].
  rewrite H1, H2. split; reflexivity.
Defined.

(** The editor of an article has a relation without foreign-key column and
    a supported type; with the type [unknown] the relation throws. *)
Lemma forward_relation_fails_exactly_when_sample :
  exists e,
    fieldToRelationType Sample.singularOf (Sample.column "editor" "unknown" true)
      Sample.articles Sample.blog = Throw e.
Proof.
  destruct (forward_relation_fails_exactly_when Sample.singularOf
              (Sample.column "editor" "unknown" true) Sample.articles Sample.blog
              Sample.articles_editor eq_refl) as [_ Hfails].
  apply Hfails. right. left. split; [reflexivity|]. cbn. intros H.
  repeat (destruct H as [H | H]; [discriminate|]). exact H.
Defined.

(** A metadata service that rejects every query. *)
Lemma metadata_is_for_plain_fields_only_sample :
  emittedType Sample.singularOf (fun _ _ => Throw (Rejection "timeout")) Sample.status
    Sample.articles Sample.blog = "never"
  /\ emittedType Sample.singularOf (fun _ _ => Throw (Rejection "timeout")) Sample.author
       Sample.articles Sample.blog
     = emittedType Sample.singularOf Sample.fieldRows Sample.author Sample.articles Sample.blog.
Proof.
  destruct (metadata_is_for_plain_fields_only Sample.singularOf
              (fun _ _ => Throw (Rejection "timeout")) Sample.fieldRows
              Sample.status Sample.articles Sample.blog) as [_ Hplain].
  destruct (metadata_is_for_plain_fields_only Sample.singularOf
              (fun _ _ => Throw (Rejection "timeout")) Sample.fieldRows
              Sample.author Sample.articles Sample.blog) as [Hrelation _].
  split.
  - apply (Hplain (Rejection "timeout") eq_refl eq_refl).
  - apply Hrelation. discriminate.
Defined.

(** The three examples with the singular forms of the library. *)
Lemma className_of_name_alone_sample :
  className Sample.singularOf {| collection := "articles"; fields := [] |} = Ok "Article"
  /\ className Sample.singularOf {| collection := "user_accounts"; fields := [] |}
     = Ok "UserAccount"
  /\ className Sample.singularOf {| collection := "news"; fields := [] |} = Ok "News".
Proof.
  destruct (className_of_name_alone Sample.singularOf) as (_ & _ & H1 & H2 & H3).
  split; [apply (H1 eq_refl) | split; [apply (H2 eq_refl) | apply (H3 eq_refl)]].
Defined.

(** Against C9 as the specification words it: the singular form of "news"
    is "news", and the identifier of the entity [news] is "News", not
    "New". *)
Lemma news_is_not_shortened :
  Sample.singularOf "news" = "news"
  /\ className Sample.singularOf {| collection := "news"; fields := [] |} = Ok "News"
  /\ className Sample.singularOf {| collection := "news"; fields := [] |} <> Ok "New".
Proof. split; [reflexivity|]. split; [reflexivity | discriminate]. Qed.

(** The priority of a ticket has numbers as the values of its choices: the
    field is typed [never]. *)
Lemma numeric_choices_are_never :
  emittedType Sample.singularOf Cases.ticketRows Cases.priority Cases.tickets Cases.desk
  = "never".
Proof. reflexivity. Qed.
